(** * osmium/geom/tile.hpp: tiles of the Mercator tiling scheme

    A shallow embedding of [osmium::geom::Tile] (libosmium, as bundled in
    osm2pgsql under contrib/) and of the functions around it:
    [detail::restrict_to_range], the two constructors, [Tile::valid],
    [operator==], [operator!=] and [operator<].

    Conventions.
    - [uint32_t] and [int32_t] values are integers of [Z]; the wrap-around
      of a conversion to [uint32_t] is written out ([to_uint32]), and an
      operation the C++ standard leaves undefined yields [Undefined].
    - [double] is IEEE 754 binary64, as specified bit for bit by the
      Standard Library's [SpecFloat] (precision 53, [emax] 1024), every
      operation rounding to nearest, ties to even.
    - A call either completes with a value, or stops on a failed [assert],
      or has undefined behaviour: the type [outcome]. *)

From Stdlib Require Import ZArith Bool Lia Reals Lra SpecFloat.

Local Open Scope Z_scope.

(** ** Outcomes of a call *)

Inductive outcome (A : Type) : Type :=
| Ok (a : A)
| AssertFail
| Undefined.

Arguments Ok {A} a.
Arguments AssertFail {A}.
Arguments Undefined {A}.

Definition bind {A B : Type} (c : outcome A) (k : A -> outcome B) : outcome B :=
  match c with
  | Ok a => k a
  | AssertFail => AssertFail
  | Undefined => Undefined
  end.

Declare Scope outcome_scope.
Delimit Scope outcome_scope with outcome.
Notation "v <- c ;; k" := (bind c (fun v => k))
  (at level 61, c at next level, right associativity) : outcome_scope.
Notation "c ;; k" := (bind c (fun _ => k))
  (at level 61, right associativity) : outcome_scope.
Local Open Scope outcome_scope.

(** [assert] of <cassert>: compiled out under [NDEBUG] (the condition is
    then not even evaluated), checked otherwise. *)
Inductive build : Type :=
| Checked
| NDEBUG.

Definition assert (b : build) (cond : outcome bool) : outcome unit :=
  match b with
  | NDEBUG => Ok tt
  | Checked =>
      c <- cond ;;
      if c then Ok tt else AssertFail
  end.

(** ** Fixed-width integers *)

(** The ranges of [uint32_t] and of [int32_t]. *)
Definition uint32 (v : Z) : Prop := 0 <= v < 2 ^ 32.

Definition is_int32 (v : Z) : bool := (- 2 ^ 31 <=? v) && (v <? 2 ^ 31).

(** Conversion of an integer to [uint32_t]: reduction modulo 2^32. *)
Definition to_uint32 (v : Z) : Z := v mod 2 ^ 32.

(** [a << k] on [int] (C++11, [expr.shift]): undefined when [k] is not
    below the width, when [a] is negative, and when [a * 2^k] is not
    representable in [int]. *)
Definition int_shl (a k : Z) : outcome Z :=
  if (0 <=? k) && (k <? 32) && (0 <=? a) && is_int32 (Z.shiftl a k)
  then Ok (Z.shiftl a k)
  else Undefined.

(** [a << k] on [unsigned]: undefined when [k] is not below the width, and
    modular otherwise. *)
Definition uint_shl (a k : Z) : outcome Z :=
  if (0 <=? k) && (k <? 32)
  then Ok (to_uint32 (Z.shiftl a k))
  else Undefined.

(** [a - b] on [int]: undefined on overflow. *)
Definition int_sub (a b : Z) : outcome Z :=
  if is_int32 (a - b) then Ok (a - b) else Undefined.

(** ** [detail::restrict_to_range] *)

Module detail.

Definition restrict_to_range (value min max : Z) : Z :=
  if value <? min then min
  else if value >? max then max
  else value.

End detail.

(** ** [struct Tile] *)

Record Tile : Type := mkTile { x : Z; y : Z; z : Z }.

Definition wf_tile (t : Tile) : Prop :=
  uint32 (x t) /\ uint32 (y t) /\ uint32 (z t).

(** [Tile(uint32_t zoom, uint32_t tx, uint32_t ty)]: the members are
    initialised first, the three asserts follow. *)
Definition Tile_xyz (b : build) (zoom tx ty : Z) : outcome Tile :=
  let t := {| x := tx; y := ty; z := zoom |} in
  assert b (Ok (zoom <=? 30)) ;;
  assert b (m <- uint_shl 1 zoom ;; Ok (x t <? m)) ;;
  assert b (m <- uint_shl 1 zoom ;; Ok (y t <? m)) ;;
  Ok t.

(** [Tile::valid]. *)
Definition valid (t : Tile) : outcome bool :=
  if z t >? 30 then Ok false
  else
    s <- int_shl 1 (z t) ;;
    let max := to_uint32 s in
    Ok ((x t <? max) && (y t <? max)).

(** [operator==], [operator!=] and [operator<]. *)
Definition operator_eq (lhs rhs : Tile) : bool :=
  (z lhs =? z rhs) && (x lhs =? x rhs) && (y lhs =? y rhs).

Definition operator_ne (lhs rhs : Tile) : bool :=
  negb (operator_eq lhs rhs).

Definition operator_lt (lhs rhs : Tile) : bool :=
  if z lhs <? z rhs then true
  else if z lhs >? z rhs then false
  else if x lhs <? x rhs then true
  else if x lhs >? x rhs then false
  else y lhs <? y rhs.

(** ** [double] *)

Definition double : Type := spec_float.

Definition prec : Z := 53.
Definition emax : Z := 1024.

Definition dadd : double -> double -> double := SFadd prec emax.
Definition dsub : double -> double -> double := SFsub prec emax.
Definition dmul : double -> double -> double := SFmul prec emax.
Definition ddiv : double -> double -> double := SFdiv prec emax.

(** A [double] proper: a [spec_float] in the canonical form of binary64. *)
Definition is_double (d : double) : bool := valid_binary prec emax d.

(** Conversion of an [int] to [double]; exact, an [int] has 32 bits. *)
Definition double_of_int (n : Z) : double := binary_normalize prec emax n 0 false.

(** Conversion of a [double] to [int32_t]: the fractional part is dropped
    (truncation towards zero); undefined when the truncated value is not
    an [int32_t], hence also for infinities and NaN. *)
Definition int32_of_double (d : double) : outcome Z :=
  match d with
  | S754_zero _ => Ok 0
  | S754_finite s m e =>
      let v := cond_Zopp s (Z.shiftl (Zpos m) e) in
      if is_int32 v then Ok v else Undefined
  | _ => Undefined
  end.

(** [osmium::geom::Coordinates], as far as this header uses it: the two
    members [x] and [y]. *)
Module Coordinates.
Record Coordinates : Type := mk { x : double; y : double }.
End Coordinates.
Abbreviation Coordinates := Coordinates.Coordinates.

(** ** The constructor from a location

    The header takes three things from the rest of libosmium, which are
    parameters here: the type [osmium::Location] with its [valid()], the
    projection [lonlat_to_mercator], and the constant
    [detail::max_coordinate_epsg3857]. *)
Section FromLocation.

Variable Location : Type.
Variable location_valid : Location -> bool.
Variable lonlat_to_mercator : Location -> Coordinates.
Variable max_coordinate_epsg3857 : double.

(** [detail::max_coordinate_epsg3857 * 2 / n] *)
Definition tile_scale (n : Z) : double :=
  ddiv (dmul max_coordinate_epsg3857 (double_of_int 2)) (double_of_int n).

(** The two quotients handed to [int32_t(...)]. *)
Definition raw_x (c : Coordinates) (scale : double) : double :=
  ddiv (dadd (Coordinates.x c) max_coordinate_epsg3857) scale.

Definition raw_y (c : Coordinates) (scale : double) : double :=
  ddiv (dsub max_coordinate_epsg3857 (Coordinates.y c)) scale.

(** [Tile(uint32_t zoom, const osmium::Location& location)] *)
Definition Tile_at (b : build) (zoom : Z) (location : Location) : outcome Tile :=
  assert b (Ok (zoom <=? 30)) ;;
  assert b (Ok (location_valid location)) ;;
  let c := lonlat_to_mercator location in
  n <- int_shl 1 zoom ;;
  let scale := tile_scale n in
  ix <- int32_of_double (raw_x c scale) ;;
  hx <- int_sub n 1 ;;
  let tx := to_uint32 (detail.restrict_to_range ix 0 hx) in
  iy <- int32_of_double (raw_y c scale) ;;
  hy <- int_sub n 1 ;;
  let ty := to_uint32 (detail.restrict_to_range iy 0 hy) in
  Ok {| x := tx; y := ty; z := zoom |}.

End FromLocation.

(** ** The real number a [double] stands for *)

Definition bpow (e : Z) : R := powerRZ 2 e.

Definition F2R (m e : Z) : R := (IZR m * bpow e)%R.

Definition SF2R (d : double) : R :=
  match d with
  | S754_finite s m e => F2R (cond_Zopp s (Zpos m)) e
  | _ => 0%R
  end.

(** A mantissa [m] with round bit [r] and sticky bit [s] locates a real
    [v] in [[m, m+1)]: at [m], strictly below the midpoint, at the
    midpoint, or strictly above it. *)
Definition located (st : shr_record) (v : R) : Prop :=
  match shr_r st, shr_s st with
  | false, false => v = IZR (shr_m st)
  | false, true => (IZR (shr_m st) < v < IZR (shr_m st) + / 2)%R
  | true, false => v = (IZR (shr_m st) + / 2)%R
  | true, true => (IZR (shr_m st) + / 2 < v < IZR (shr_m st) + 1)%R
  end.

(** The mantissa [m] at exponent [e] is the point nearest to [v], ties to
    even, on the part of the binary64 grid that [v] falls in: [e] is the
    exponent of the binade of [v], or [emin] below the normal range. *)
Definition grid_nearest (m e : Z) (v : R) : Prop :=
  - 1074 <= e
  /\ 0 <= m <= 2 ^ 53
  /\ (IZR m - / 2 <= v * bpow (- e) <= IZR m + / 2)%R
  /\ ((v * bpow (- e) = IZR m - / 2 \/ v * bpow (- e) = IZR m + / 2)%R ->
      Z.even m = true)
  /\ (- 1074 < e -> 2 ^ 52 <= m /\ (bpow (e + 52) <= v)%R)
  /\ (v < bpow (e + 53))%R.

(** [w] is [v] rounded to nearest, ties to even (overflow set aside). *)
Definition rounded_value (v w : R) : Prop :=
  exists m e : Z, w = F2R m e /\ grid_nearest m e v.

(** What [binary_round_aux] returns once the mantissa [m] at exponent [e]
    has been chosen: zero, a renormalised [2^53], overflow, or [m] itself. *)
Definition round_result (sx : bool) (m e : Z) : double :=
  if m =? 0 then S754_zero sx
  else if m =? 2 ^ prec then
    if e + 1 <=? emax - prec then S754_finite sx (Z.to_pos (2 ^ (prec - 1))) (e + 1)
    else S754_infinity sx
  else
    if e <=? emax - prec then S754_finite sx (Z.to_pos m) e
    else S754_infinity sx.

(** The non-negative numbers of the binary64 grid: an integer mantissa
    below [2^53] at an exponent between [emin = -1074] and
    [emax - prec = 971]. *)
Definition representable (v : R) : Prop :=
  exists m e : Z,
    v = F2R m e /\ 0 <= m < 2 ^ 53 /\ - 1074 <= e <= 971.

(** Finite doubles in canonical form, and the non-negative ones. *)
Definition finite_double (d : double) : Prop :=
  match d with
  | S754_zero _ => True
  | S754_finite _ m e => bounded prec emax m e = true
  | _ => False
  end.

Definition nonneg_double (d : double) : Prop :=
  match d with
  | S754_zero _ => True
  | S754_finite s m e => s = false /\ bounded prec emax m e = true
  | _ => False
  end.

(** ** Vocabulary of the specification *)

(** [a <= b] on doubles, as C++ evaluates it. *)
Definition dle (a b : double) : bool := SFleb a b.

(** Clamping into [[lo, hi]]: an out-of-range value is replaced by the
    nearest boundary. *)
Definition clamp (v lo hi : Z) : Z := Z.max lo (Z.min v hi).

(** The integer part of a double, rounding down (see
    [double_floor_spec]). *)
Definition double_floor (d : double) : Z :=
  match d with
  | S754_finite s m e => Z.shiftl (cond_Zopp s (Zpos m)) e
  | _ => 0
  end.

(** What the development asks of the constant [M]: a positive double for
    which [2 * M] and [2 * M / 2^30] are computed without rounding. *)
Definition extent_ok (M : double) : bool :=
  match M with
  | S754_finite false m e => bounded prec emax m e && (- 1045 <=? e) && (e <=? 970)
  | _ => false
  end.

(** Modelled from the spec: the projection [lonlat_to_mercator] is not in
    this header; the specification requires of it that the coordinates of
    a valid location lie in the square [[-M, M] x [-M, M]]. *)
Definition within_extent (M : double) (c : Coordinates) : bool :=
  is_double (Coordinates.x c) && is_double (Coordinates.y c)
  && dle (SFopp M) (Coordinates.x c) && dle (Coordinates.x c) M
  && dle (SFopp M) (Coordinates.y c) && dle (Coordinates.y c) M.

(** The specification's formulas for the point-based constructor, in
    binary64 arithmetic: [n = 2^zoom], [scale = (2 * M) / n], column
    [floor((px + M) / scale)] and row [floor((M - py) / scale)], each
    clamped into [[0, n - 1]]. *)
Definition spec_scale (M : double) (zoom : Z) : double :=
  ddiv (dmul (double_of_int 2) M) (double_of_int (2 ^ zoom)).

Definition spec_column (M : double) (zoom : Z) (px : double) : Z :=
  clamp (double_floor (ddiv (dadd px M) (spec_scale M zoom))) 0 (2 ^ zoom - 1).

Definition spec_row (M : double) (zoom : Z) (py : double) : Z :=
  clamp (double_floor (ddiv (dsub M py) (spec_scale M zoom))) 0 (2 ^ zoom - 1).

(** ** A concrete instance

    For concrete runs of the constructor: the value 20037508.34 that
    libosmium gives [max_coordinate_epsg3857], as a binary64 number, and
    locations given directly by their planar coordinates. *)
Definition epsg3857_max : double := S754_finite false 5378777688351703 (- 28).

Definition planar_valid (c : Coordinates) : bool := within_extent epsg3857_max c.

Definition planar_projection (c : Coordinates) : Coordinates := c.

Definition planar_Tile_at : build -> Z -> Coordinates -> outcome Tile :=
  Tile_at Coordinates planar_valid planar_projection epsg3857_max.

(** * The integer part: [valid], the constructor from coordinates, the
      comparison operators *)

(** ** Integer helpers *)

(** Rewrites a comparison of the goal that holds by linear arithmetic. *)
Ltac holds c :=
  replace c with true
    by (symmetry; first [apply Z.leb_le | apply Z.ltb_lt]; lia).
Ltac fails c :=
  replace c with false
    by (symmetry; first [apply Z.leb_gt | apply Z.ltb_ge]; lia).

Lemma shiftl_1 (k : Z) : 0 <= k -> Z.shiftl 1 k = 2 ^ k.
Proof. intros Hk. rewrite Z.shiftl_mul_pow2 by assumption. lia. Qed.

Lemma pow2_le_30 (k : Z) : 0 <= k <= 30 -> 1 <= 2 ^ k <= 2 ^ 30.
Proof.
  intros [H0 H1]. split.
  - pose proof (Z.pow_pos_nonneg 2 k). lia.
  - apply Z.pow_le_mono_r; lia.
Qed.

Lemma is_int32_true (v : Z) : - 2 ^ 31 <= v < 2 ^ 31 -> is_int32 v = true.
Proof.
  intros [H0 H1]. unfold is_int32.
  apply andb_true_intro; split; [now apply Z.leb_le | now apply Z.ltb_lt].
Qed.


Lemma int_shl_1 (k : Z) : 0 <= k <= 30 -> int_shl 1 k = Ok (2 ^ k).
Proof.
  intros Hk. unfold int_shl. rewrite shiftl_1 by lia.
  pose proof (pow2_le_30 k Hk) as Hp.
  change (2 ^ 30) with 1073741824 in Hp.
  rewrite is_int32_true by (change (2 ^ 31) with 2147483648; lia).
  holds (0 <=? k). holds (k <? 32).
  reflexivity.
Qed.

Lemma int_shl_1_undefined (k : Z) : 31 <= k -> int_shl 1 k = Undefined.
Proof.
  intros Hk. unfold int_shl, is_int32.
  destruct (k <? 32) eqn:E; [| now rewrite andb_false_r].
  apply Z.ltb_lt in E. assert (k = 31) by lia. subst k. reflexivity.
Qed.

Lemma uint_shl_1 (k : Z) : 0 <= k <= 30 -> uint_shl 1 k = Ok (2 ^ k).
Proof.
  intros Hk. unfold uint_shl, to_uint32. rewrite shiftl_1 by lia.
  pose proof (pow2_le_30 k Hk) as Hp.
  change (2 ^ 30) with 1073741824 in Hp.
  holds (0 <=? k). holds (k <? 32).
  simpl. rewrite Z.mod_small; [reflexivity |]. change (2 ^ 32) with 4294967296. lia.
Qed.

Lemma to_uint32_small (v : Z) : 0 <= v < 2 ^ 32 -> to_uint32 v = v.
Proof. intros H. unfold to_uint32. now apply Z.mod_small. Qed.

Lemma restrict_to_range_bounds (v lo hi : Z) :
  lo <= hi -> lo <= detail.restrict_to_range v lo hi <= hi.
Proof.
  intros H. unfold detail.restrict_to_range.
  destruct (v <? lo) eqn:E1; [lia |].
  destruct (v >? hi) eqn:E2; [lia |].
  apply Z.ltb_ge in E1. rewrite Z.gtb_ltb in E2. apply Z.ltb_ge in E2. lia.
Qed.

(** What [valid] computes, for every tile whose members are [uint32_t]. *)
Lemma valid_eq (t : Tile) :
  wf_tile t ->
  valid t = Ok ((z t <=? 30) && (x t <? 2 ^ z t) && (y t <? 2 ^ z t)).
Proof.
  intros (_ & _ & Hz). unfold valid. unfold uint32 in Hz.
  rewrite Z.gtb_ltb.
  destruct (30 <? z t) eqn:E.
  - apply Z.ltb_lt in E.
    fails (z t <=? 30). reflexivity.
  - apply Z.ltb_ge in E.
    holds (z t <=? 30).
    rewrite int_shl_1 by lia. cbn [bind andb].
    rewrite to_uint32_small; [reflexivity |].
    pose proof (pow2_le_30 (z t)) as Hp. change (2 ^ 30) with 1073741824 in Hp.
    change (2 ^ 32) with 4294967296. lia.
Qed.

(** ** [Tile::valid] *)

(** C2. For every tile whose members are [uint32_t] values, [valid()]
    returns true if and only if [z <= 30], [x < 2^z] and [y < 2^z]; it
    always returns a boolean (it is a function of the tile alone, with no
    state to change), and it returns false whenever [z > 30], whatever [x]
    and [y] are. *)
Theorem valid_iff (t : Tile) :
  wf_tile t ->
  (valid t = Ok true <-> z t <= 30 /\ x t < 2 ^ z t /\ y t < 2 ^ z t)
  /\ (valid t = Ok true \/ valid t = Ok false)
  /\ (30 < z t -> valid t = Ok false).
Proof.
  intros Hwf. rewrite (valid_eq t Hwf).
  split; [split | split].
  - intros H. injection H as H1.
    apply andb_prop in H1 as [H2 Hy]. apply andb_prop in H2 as [Hz Hx].
    apply Z.leb_le in Hz. apply Z.ltb_lt in Hx. apply Z.ltb_lt in Hy. lia.
  - intros (Hz & Hx & Hy). f_equal.
    apply Z.leb_le in Hz. apply Z.ltb_lt in Hx. apply Z.ltb_lt in Hy.
    now rewrite Hz, Hx, Hy.
  - destruct ((z t <=? 30) && (x t <? 2 ^ z t) && (y t <? 2 ^ z t)); auto.
  - intros Hz. fails (z t <=? 30). reflexivity.
Qed.

Lemma valid_iff_witness :
  let t := {| x := 3; y := 7; z := 5 |} in
  (valid t = Ok true <-> z t <= 30 /\ x t < 2 ^ z t /\ y t < 2 ^ z t)
  /\ (valid t = Ok true \/ valid t = Ok false)
  /\ (30 < z t -> valid t = Ok false).
Proof.
  apply (valid_iff {| x := 3; y := 7; z := 5 |}).
  unfold wf_tile, uint32; simpl; lia.
Defined.

(** C10. In [valid()] the shift [1 << z] is only reached with [z <= 30],
    where it is defined and its result fits an [int]; for [z > 30], where
    the shift would be undefined, [valid()] has already returned false. So
    [valid()] returns a boolean for every tile, [z = 31] and beyond
    included. *)
Theorem valid_total (t : Tile) :
  wf_tile t ->
  (exists r, valid t = Ok r)
  /\ (z t <= 30 -> int_shl 1 (z t) = Ok (2 ^ z t) /\ 2 ^ z t < 2 ^ 31)
  /\ (30 < z t -> int_shl 1 (z t) = Undefined /\ valid t = Ok false).
Proof.
  intros Hwf. pose proof Hwf as (_ & _ & Hz). unfold uint32 in Hz.
  split; [| split].
  - rewrite (valid_eq t Hwf). eauto.
  - intros H. split; [apply int_shl_1; lia |].
    apply Z.pow_lt_mono_r; lia.
  - intros H. split; [apply int_shl_1_undefined; lia |].
    unfold valid. replace (z t >? 30) with true; [reflexivity |].
    symmetry. rewrite Z.gtb_ltb. apply Z.ltb_lt. lia.
Qed.

Lemma valid_total_witness :
  let t := {| x := 0; y := 0; z := 31 |} in
  (exists r, valid t = Ok r)
  /\ (z t <= 30 -> int_shl 1 (z t) = Ok (2 ^ z t) /\ 2 ^ z t < 2 ^ 31)
  /\ (30 < z t -> int_shl 1 (z t) = Undefined /\ valid t = Ok false).
Proof.
  apply (valid_total {| x := 0; y := 0; z := 31 |}).
  unfold wf_tile, uint32; simpl; lia.
Defined.

(** ** The constructor from explicit coordinates *)

(** C5. Under its preconditions [zoom <= 30], [tx < 2^zoom] and
    [ty < 2^zoom] the constructor completes, in either build, and the tile
    holds the three arguments as they were passed. *)
Theorem Tile_xyz_verbatim (b : build) (zoom tx ty : Z) :
  0 <= zoom <= 30 -> 0 <= tx < 2 ^ zoom -> 0 <= ty < 2 ^ zoom ->
  Tile_xyz b zoom tx ty = Ok {| x := tx; y := ty; z := zoom |}.
Proof.
  intros Hz Hx Hy. unfold Tile_xyz. destruct b; [| reflexivity].
  unfold assert. rewrite uint_shl_1 by assumption. cbn [bind x y].
  holds (zoom <=? 30). holds (tx <? 2 ^ zoom). holds (ty <? 2 ^ zoom).
  reflexivity.
Qed.

Lemma Tile_xyz_verbatim_witness :
  Tile_xyz Checked 5 3 7 = Ok {| x := 3; y := 7; z := 5 |}.
Proof. apply (Tile_xyz_verbatim Checked 5 3 7); simpl; lia. Defined.

(** C4, as the specification states it, fails at zoom 31: column 0 and
    row 0 are below [2^31], yet the tile is not valid. Without asserts
    the constructor returns it; with asserts the constructor stops. *)
Lemma Tile_xyz_zoom_31_not_valid :
  uint32 31 /\ 0 < 2 ^ 31
  /\ Tile_xyz NDEBUG 31 0 0 = Ok {| x := 0; y := 0; z := 31 |}
  /\ valid {| x := 0; y := 0; z := 31 |} = Ok false
  /\ Tile_xyz Checked 31 0 0 = AssertFail.
Proof. unfold uint32. repeat split; lia. Qed.

(** C4, amended. For every [zoom <= 30], [tx < 2^zoom] and [ty < 2^zoom]
    the constructor from explicit coordinates completes and the tile it
    returns satisfies [valid()]. *)
Theorem Tile_xyz_valid (b : build) (zoom tx ty : Z) :
  0 <= zoom <= 30 -> 0 <= tx < 2 ^ zoom -> 0 <= ty < 2 ^ zoom ->
  exists t, Tile_xyz b zoom tx ty = Ok t /\ valid t = Ok true.
Proof.
  intros Hz Hx Hy. exists {| x := tx; y := ty; z := zoom |}. split.
  - unfold Tile_xyz. destruct b; [| reflexivity].
    unfold assert. rewrite uint_shl_1 by assumption. cbn [bind x y].
    holds (zoom <=? 30). holds (tx <? 2 ^ zoom). holds (ty <? 2 ^ zoom).
    reflexivity.
  - pose proof (pow2_le_30 zoom Hz) as Hp. change (2 ^ 30) with 1073741824 in Hp.
    rewrite valid_eq.
    + cbn [x y z].
      holds (zoom <=? 30). holds (tx <? 2 ^ zoom). holds (ty <? 2 ^ zoom).
      reflexivity.
    + unfold wf_tile, uint32. cbn [x y z]. change (2 ^ 32) with 4294967296. lia.
Qed.

Lemma Tile_xyz_valid_witness :
  exists t, Tile_xyz Checked 5 3 7 = Ok t /\ valid t = Ok true.
Proof. apply (Tile_xyz_valid Checked 5 3 7); simpl; lia. Defined.

(** ** Comparison operators *)

Lemma operator_eq_spec (a b : Tile) :
  operator_eq a b = true <-> z a = z b /\ x a = x b /\ y a = y b.
Proof.
  unfold operator_eq. rewrite !andb_true_iff, !Z.eqb_eq. tauto.
Qed.

Lemma operator_lt_spec (a b : Tile) :
  operator_lt a b = true <->
  z a < z b \/ (z a = z b /\ (x a < x b \/ (x a = x b /\ y a < y b))).
Proof.
  unfold operator_lt. rewrite !Z.gtb_ltb.
  destruct (z a <? z b) eqn:E1; [apply Z.ltb_lt in E1; intuition lia |].
  destruct (z b <? z a) eqn:E2; [apply Z.ltb_lt in E2; intuition (try discriminate; lia) |].
  destruct (x a <? x b) eqn:E3; [apply Z.ltb_lt in E3; apply Z.ltb_ge in E1, E2; intuition lia |].
  destruct (x b <? x a) eqn:E4; [apply Z.ltb_lt in E4; intuition (try discriminate; lia) |].
  apply Z.ltb_ge in E1, E2, E3, E4. rewrite Z.ltb_lt. intuition lia.
Qed.

(** C6. [operator==] holds exactly when the three members agree (that is,
    when the two tiles are the same value); it is reflexive, symmetric and
    transitive; two tiles that differ in a member compare unequal; and
    [operator!=] is its negation. *)
Theorem operator_eq_fieldwise :
  (forall a b, operator_eq a b = true <-> z a = z b /\ x a = x b /\ y a = y b)
  /\ (forall a b, operator_eq a b = true <-> a = b)
  /\ (forall a, operator_eq a a = true)
  /\ (forall a b, operator_eq a b = operator_eq b a)
  /\ (forall a b c, operator_eq a b = true -> operator_eq b c = true ->
                    operator_eq a c = true)
  /\ (forall a b, z a <> z b \/ x a <> x b \/ y a <> y b ->
                  operator_eq a b = false /\ operator_ne a b = true)
  /\ (forall a b, operator_ne a b = negb (operator_eq a b)).
Proof.
  assert (Hrec : forall a b, operator_eq a b = true <-> a = b).
  { intros a b. rewrite operator_eq_spec. split.
    - destruct a, b; cbn. intros (-> & -> & ->). reflexivity.
    - intros ->. auto. }
  split; [exact operator_eq_spec |].
  split; [exact Hrec |].
  split; [intros a; now apply Hrec |].
  split.
  { intros a b. unfold operator_eq.
    now rewrite (Z.eqb_sym (z a)), (Z.eqb_sym (x a)), (Z.eqb_sym (y a)). }
  split.
  { intros a b c. rewrite !Hrec. congruence. }
  split.
  { intros a b Hd. unfold operator_ne.
    destruct (operator_eq a b) eqn:E; [| split; reflexivity].
    apply operator_eq_spec in E. exfalso. tauto. }
  reflexivity.
Qed.

(** C7. [operator<] compares by zoom first, then by column, then by row.
    It is irreflexive and transitive, and of two tiles exactly one of
    [a < b], [a == b], [b < a] holds, so that for distinct tiles exactly
    one of [a < b] and [b < a] does. In particular
    (z=5,x=3,y=7) < (z=5,x=3,y=8) and (z=4,x=9,y=9) < (z=5,x=0,y=0). *)
Theorem operator_lt_strict_total_order :
  (forall a b, operator_lt a b = true <->
     z a < z b \/ (z a = z b /\ (x a < x b \/ (x a = x b /\ y a < y b))))
  /\ (forall a, operator_lt a a = false)
  /\ (forall a b c, operator_lt a b = true -> operator_lt b c = true ->
                    operator_lt a c = true)
  /\ (forall a b,
        (operator_lt a b = true /\ operator_eq a b = false /\ operator_lt b a = false)
        \/ (operator_lt a b = false /\ operator_eq a b = true /\ operator_lt b a = false)
        \/ (operator_lt a b = false /\ operator_eq a b = false /\ operator_lt b a = true))
  /\ (forall a b, a <> b -> xorb (operator_lt a b) (operator_lt b a) = true)
  /\ operator_lt {| z := 5; x := 3; y := 7 |} {| z := 5; x := 3; y := 8 |} = true
  /\ operator_lt {| z := 4; x := 9; y := 9 |} {| z := 5; x := 0; y := 0 |} = true.
Proof.
  assert (Htri : forall a b,
        (operator_lt a b = true /\ operator_eq a b = false /\ operator_lt b a = false)
        \/ (operator_lt a b = false /\ operator_eq a b = true /\ operator_lt b a = false)
        \/ (operator_lt a b = false /\ operator_eq a b = false /\ operator_lt b a = true)).
  { intros a b.
    pose proof (operator_lt_spec a b) as Hab.
    pose proof (operator_lt_spec b a) as Hba.
    pose proof (operator_eq_spec a b) as Heq.
    destruct (operator_lt a b), (operator_lt b a), (operator_eq a b);
      intuition (try discriminate; try lia). }
  split; [exact operator_lt_spec |].
  split.
  { intros a. destruct (operator_lt a a) eqn:E; [| reflexivity].
    apply operator_lt_spec in E. lia. }
  split.
  { intros a b c. rewrite !operator_lt_spec. lia. }
  split; [exact Htri |].
  split.
  { intros a b Hne.
    destruct (Htri a b) as [(-> & _ & ->) | [(_ & He & _) | (-> & _ & ->)]];
      try reflexivity.
    exfalso. apply Hne. apply operator_eq_spec in He.
    destruct a, b; cbn in He. destruct He as (-> & -> & ->). reflexivity. }
  split; reflexivity.
Qed.

(** * Binary64 arithmetic

    [SpecFloat] defines the operations on mantissas and exponents. The
    lemmas below relate them to the real numbers the doubles stand for:
    each operation returns the exact result rounded to nearest, and a
    rounded result never crosses a number of the binary64 grid. *)

(** ** Powers of two *)

Lemma bpow_add (a b : Z) : bpow (a + b) = (bpow a * bpow b)%R.
Proof. unfold bpow. apply powerRZ_add. lra. Qed.

Lemma bpow_gt_0 (e : Z) : (0 < bpow e)%R.
Proof. unfold bpow. apply powerRZ_lt. lra. Qed.

Lemma bpow_IZR (k : Z) : 0 <= k -> bpow k = IZR (2 ^ k).
Proof.
  intros Hk. unfold bpow.
  rewrite <- (Z2Nat.id k Hk). rewrite <- pow_powerRZ. now rewrite pow_IZR.
Qed.

Lemma bpow_0 : bpow 0 = 1%R.
Proof. reflexivity. Qed.

Lemma bpow_succ (e : Z) : bpow (e + 1) = (2 * bpow e)%R.
Proof. rewrite bpow_add. change (bpow 1) with (2 * 1)%R. lra. Qed.

Lemma bpow_ge_1 (k : Z) : 0 <= k -> (1 <= bpow k)%R.
Proof.
  intros Hk. rewrite bpow_IZR by assumption. apply IZR_le.
  pose proof (Z.pow_pos_nonneg 2 k). lia.
Qed.

Lemma bpow_le (a b : Z) : a <= b -> (bpow a <= bpow b)%R.
Proof.
  intros H. replace b with (a + (b - a)) by lia. rewrite bpow_add.
  pose proof (bpow_gt_0 a).
  assert (1 <= bpow (b - a))%R by (apply bpow_ge_1; lia). nra.
Qed.


Lemma bpow_opp (e : Z) : (bpow e * bpow (- e) = 1)%R.
Proof. rewrite <- bpow_add. replace (e + - e) with 0 by lia. apply bpow_0. Qed.

(** ** Mantissa and exponent *)

Lemma F2R_shift (m e k : Z) : 0 <= k -> F2R (m * 2 ^ k) (e - k) = F2R m e.
Proof.
  intros Hk. unfold F2R. rewrite mult_IZR, <- bpow_IZR by assumption.
  replace e with ((e - k) + k) at 2 by lia. rewrite bpow_add. ring.
Qed.

Lemma F2R_le (m1 m2 e : Z) : (F2R m1 e <= F2R m2 e)%R <-> m1 <= m2.
Proof.
  unfold F2R. pose proof (bpow_gt_0 e). split.
  - intros Hle. apply le_IZR. nra.
  - intros Hle. apply IZR_le in Hle. nra.
Qed.

Lemma F2R_lt (m1 m2 e : Z) : (F2R m1 e < F2R m2 e)%R <-> m1 < m2.
Proof.
  unfold F2R. pose proof (bpow_gt_0 e). split.
  - intros Hlt. apply lt_IZR. nra.
  - intros Hlt. apply IZR_lt in Hlt. nra.
Qed.


Lemma F2R_0 (e : Z) : F2R 0 e = 0%R.
Proof. unfold F2R. lra. Qed.

Lemma F2R_opp (m e : Z) : F2R (- m) e = (- F2R m e)%R.
Proof. unfold F2R. rewrite opp_IZR. ring. Qed.

Lemma F2R_add (m1 m2 e : Z) : F2R (m1 + m2) e = (F2R m1 e + F2R m2 e)%R.
Proof. unfold F2R. rewrite plus_IZR. ring. Qed.

(** ** Number of binary digits *)

Lemma digits2_pos_bounds (p : positive) :
  2 ^ (Zpos (digits2_pos p) - 1) <= Zpos p < 2 ^ Zpos (digits2_pos p).
Proof.
  induction p as [p IH | p IH |]; cbn [digits2_pos].
  - rewrite Pos2Z.inj_succ.
    replace (Z.succ (Zpos (digits2_pos p)) - 1) with ((Zpos (digits2_pos p) - 1) + 1) by lia.
    rewrite Z.pow_add_r, Z.pow_succ_r by lia. lia.
  - rewrite Pos2Z.inj_succ.
    replace (Z.succ (Zpos (digits2_pos p)) - 1) with ((Zpos (digits2_pos p) - 1) + 1) by lia.
    rewrite Z.pow_add_r, Z.pow_succ_r by lia. lia.
  - cbn. lia.
Qed.

Lemma Zdigits2_log2 (m : Z) : 0 < m -> Zdigits2 m = Z.log2 m + 1.
Proof.
  intros Hm. destruct m as [| p | p]; try lia. cbn [Zdigits2].
  pose proof (digits2_pos_bounds p) as Hb.
  symmetry. rewrite (Z.log2_unique (Zpos p) (Zpos (digits2_pos p) - 1)); try lia.
  replace (Z.succ (Zpos (digits2_pos p) - 1)) with (Zpos (digits2_pos p)) by lia.
  exact Hb.
Qed.

Lemma Zdigits2_bounds (m : Z) :
  0 < m -> 2 ^ (Zdigits2 m - 1) <= m < 2 ^ Zdigits2 m.
Proof.
  intros Hm. destruct m as [| p | p]; try lia. apply digits2_pos_bounds.
Qed.

Lemma Zdigits2_nonneg (m : Z) : 0 <= Zdigits2 m.
Proof. destruct m; cbn; lia. Qed.



Lemma Zdigits2_ge (m k : Z) : 0 <= k -> 2 ^ k <= m -> k + 1 <= Zdigits2 m.
Proof.
  intros Hk Hm.
  assert (0 < m) by (pose proof (Z.pow_pos_nonneg 2 k); lia).
  rewrite Zdigits2_log2 by assumption.
  apply Z.log2_le_pow2 in Hm; lia.
Qed.

Lemma Zdigits2_shiftr (m k : Z) :
  0 < m -> 0 <= k -> Zdigits2 (m / 2 ^ k) = Z.max 0 (Zdigits2 m - k).
Proof.
  intros Hm Hk. rewrite <- Z.shiftr_div_pow2 by assumption.
  destruct (Z.eq_dec (Z.shiftr m k) 0) as [E | E].
  - rewrite E. cbn [Zdigits2].
    apply Z.shiftr_eq_0_iff in E. rewrite Zdigits2_log2 by assumption. lia.
  - assert (0 < Z.shiftr m k).
    { pose proof (Z.shiftr_nonneg m k). lia. }
    rewrite !Zdigits2_log2 by assumption.
    rewrite Z.log2_shiftr by assumption.
    assert (~ Z.log2 m < k).
    { intros Hlt. apply E. apply Z.shiftr_eq_0; lia. }
    lia.
Qed.

Lemma Zdigits2_mul_pow2 (m k : Z) :
  0 < m -> 0 <= k -> Zdigits2 (m * 2 ^ k) = Zdigits2 m + k.
Proof.
  intros Hm Hk.
  assert (0 < m * 2 ^ k) by (pose proof (Z.pow_pos_nonneg 2 k); nia).
  rewrite !Zdigits2_log2 by assumption. rewrite Z.log2_mul_pow2 by lia. lia.
Qed.


(** ** Shifting a mantissa to the right *)

Lemma bpow_m1 : bpow (- 1) = (/ 2)%R.
Proof. unfold bpow, powerRZ. simpl. now rewrite Rmult_1_r. Qed.

Lemma IZR_xO (p : positive) : IZR (Zpos p~0) = (2 * IZR (Zpos p))%R.
Proof. change (Zpos p~0) with (2 * Zpos p). now rewrite mult_IZR. Qed.

Lemma IZR_xI (p : positive) : IZR (Zpos p~1) = (2 * IZR (Zpos p) + 1)%R.
Proof. change (Zpos p~1) with (2 * Zpos p + 1). now rewrite plus_IZR, mult_IZR. Qed.

Lemma shr_1_located (st : shr_record) (v : R) :
  0 <= shr_m st -> located st v ->
  located (shr_1 st) (v * bpow (- 1))
  /\ shr_m (shr_1 st) = shr_m st / 2 ^ 1.
Proof.
  rewrite bpow_m1. change (2 ^ 1) with 2.
  destruct st as [m r s]. cbn [shr_m]. intros Hm Hloc.
  destruct m as [| [p | p |] |]; try lia.
  - split; [| reflexivity].
    unfold located in *; cbn [shr_1 shr_m shr_r shr_s] in *.
    destruct r, s; cbn [orb]; lra.
  - split; [| cbn [shr_1 shr_m]; rewrite Pos2Z.inj_xI, Z.mul_comm, Z.div_add_l by lia;
              now rewrite Z.div_small by lia ].
    unfold located in *; cbn [shr_1 shr_m shr_r shr_s] in *.
    rewrite IZR_xI in Hloc. destruct r, s; cbn [orb]; lra.
  - split; [| cbn [shr_1 shr_m]; now rewrite Pos2Z.inj_xO, Z.mul_comm, Z.div_mul by lia ].
    unfold located in *; cbn [shr_1 shr_m shr_r shr_s] in *.
    rewrite IZR_xO in Hloc. destruct r, s; cbn [orb]; lra.
  - split; [| reflexivity].
    unfold located in *; cbn [shr_1 shr_m shr_r shr_s] in *.
    destruct r, s; cbn [orb]; lra.
Qed.

Lemma iter_shr_1_located (n : positive) :
  forall (st : shr_record) (v : R),
    0 <= shr_m st -> located st v ->
    located (iter_pos shr_1 n st) (v * bpow (- Zpos n))
    /\ shr_m (iter_pos shr_1 n st) = shr_m st / 2 ^ Zpos n.
Proof.
  assert (Hdiv : forall a b c, 0 <= b -> 0 <= c -> a / 2 ^ b / 2 ^ c = a / 2 ^ (b + c)).
  { intros a b c Hb Hc. rewrite Z.pow_add_r by assumption.
    apply Z.div_div; [apply Z.pow_nonzero; lia | apply Z.pow_pos_nonneg; lia]. }
  induction n as [n IH | n IH |]; intros st v Hm Hloc; cbn [iter_pos].
  - destruct (shr_1_located st v Hm Hloc) as [L1 M1].
    assert (N1 : 0 <= shr_m (shr_1 st)) by (rewrite M1; apply Z.div_pos; lia).
    destruct (IH _ _ N1 L1) as [L2 M2].
    assert (N2 : 0 <= shr_m (iter_pos shr_1 n (shr_1 st))).
    { rewrite M2. apply Z.div_pos; [assumption | apply Z.pow_pos_nonneg; lia]. }
    destruct (IH _ _ N2 L2) as [L3 M3]. split.
    + replace (v * bpow (- Zpos n~1))%R
        with (v * bpow (- 1) * bpow (- Zpos n) * bpow (- Zpos n))%R; [exact L3 |].
      rewrite !Rmult_assoc, <- !bpow_add. do 2 f_equal. lia.
    + rewrite M3, M2, M1, !Hdiv by lia. do 2 f_equal. lia.
  - destruct (IH _ _ Hm Hloc) as [L2 M2].
    assert (N2 : 0 <= shr_m (iter_pos shr_1 n st)).
    { rewrite M2. apply Z.div_pos; [assumption | apply Z.pow_pos_nonneg; lia]. }
    destruct (IH _ _ N2 L2) as [L3 M3]. split.
    + replace (v * bpow (- Zpos n~0))%R
        with (v * bpow (- Zpos n) * bpow (- Zpos n))%R; [exact L3 |].
      rewrite !Rmult_assoc, <- !bpow_add. do 2 f_equal. lia.
    + rewrite M3, M2, !Hdiv by lia. do 2 f_equal. lia.
  - exact (shr_1_located st v Hm Hloc).
Qed.

Lemma shr_located (st : shr_record) (e n : Z) (v : R) :
  0 <= shr_m st -> located st (v * bpow (- e)) ->
  located (fst (shr st e n)) (v * bpow (- (e + Z.max 0 n)))
  /\ shr_m (fst (shr st e n)) = shr_m st / 2 ^ Z.max 0 n
  /\ snd (shr st e n) = e + Z.max 0 n.
Proof.
  intros Hm Hloc. destruct n as [| p | p]; cbn [shr fst snd].
  - rewrite Z.max_l, Z.add_0_r, Z.div_1_r by lia. auto.
  - rewrite Z.max_r by lia.
    destruct (iter_shr_1_located p st _ Hm Hloc) as [L M].
    split; [| split; [exact M | reflexivity]].
    replace (v * bpow (- (e + Zpos p)))%R with (v * bpow (- e) * bpow (- Zpos p))%R;
      [exact L |].
    rewrite Rmult_assoc, <- bpow_add. do 2 f_equal. lia.
  - rewrite Z.max_l, Z.add_0_r, Z.div_1_r by lia. auto.
Qed.

(** ** Rounding to nearest, ties to even *)

Lemma round_nearest_even_located (st : shr_record) (v : R) :
  located st v ->
  let m := round_nearest_even (shr_m st) (loc_of_shr_record st) in
  (m = shr_m st \/ m = shr_m st + 1)
  /\ (IZR m - / 2 <= v <= IZR m + / 2)%R
  /\ (IZR (shr_m st) <= v < IZR (shr_m st) + 1)%R
  /\ ((v = IZR m - / 2 \/ v = IZR m + / 2)%R -> Z.even m = true).
Proof.
  destruct st as [m r s]. unfold located. cbn [shr_m shr_r shr_s loc_of_shr_record].
  destruct r, s; cbn [round_nearest_even]; intros H.
  - rewrite plus_IZR. split; [auto |]. split; [lra |]. split; [lra |].
    intros [E | E]; exfalso; lra.
  - destruct (Z.even m) eqn:Ev.
    + split; [auto |]. split; [lra |]. split; [lra |]. auto.
    + rewrite plus_IZR. split; [auto |]. split; [lra |]. split; [lra |].
      intros _. rewrite Z.even_add, Ev. reflexivity.
  - split; [auto |]. split; [lra |]. split; [lra |].
    intros [E | E]; exfalso; lra.
  - split; [auto |]. split; [lra |]. split; [lra |].
    intros [E | E]; exfalso; lra.
Qed.

(** ** What [binary_round_aux] computes *)

Lemma fexp_unfold (e : Z) : fexp prec emax e = Z.max (e - 53) (- 1074).
Proof. reflexivity. Qed.

Lemma shr_m_of_loc (m : Z) (l : location) : shr_m (shr_record_of_loc m l) = m.
Proof. destruct l as [| []]; reflexivity. Qed.

Lemma shr_nonpos (st : shr_record) (e n : Z) : n <= 0 -> shr st e n = (st, e).
Proof. intros Hn. destruct n; try reflexivity. lia. Qed.

Lemma Zdigits2_le_prec (m : Z) : 0 <= m < 2 ^ 53 -> Zdigits2 m <= 53.
Proof.
  intros [H0 H1]. destruct (Z.eq_dec m 0) as [-> | Hne]; [cbn; lia |].
  pose proof (Zdigits2_bounds m ltac:(lia)) as [Hlo _].
  pose proof (Zdigits2_nonneg m).
  destruct (Z_le_dec (Zdigits2 m) 53) as [Hle | Hgt]; [assumption |].
  exfalso. assert (2 ^ 53 <= 2 ^ (Zdigits2 m - 1)) by (apply Z.pow_le_mono_r; lia). lia.
Qed.

Lemma round_result_second_shift (sx : bool) (m e : Z) :
  0 <= m <= 2 ^ 53 -> - 1074 <= e ->
  (- 1074 < e -> 2 ^ 52 <= m) ->
  (let '(mrs, e') := shr_fexp prec emax m e loc_Exact in
   match shr_m mrs with
   | Z0 => S754_zero sx
   | Zpos p => if e' <=? emax - prec then S754_finite sx p e' else S754_infinity sx
   | Zneg _ => S754_nan
   end) = round_result sx m e.
Proof.
  intros Hm He Hnorm. unfold shr_fexp, round_result. rewrite fexp_unfold.
  destruct (Z.eq_dec m 0) as [-> | Hm0].
  - cbn [Zdigits2]. rewrite shr_nonpos by lia. reflexivity.
  - destruct (Z.eq_dec m (2 ^ 53)) as [-> | Hm53].
    + change (Zdigits2 (2 ^ 53)) with 54.
      replace (Z.max (54 + e - 53) (- 1074) - e) with 1 by lia.
      reflexivity.
    + assert (Hd : Zdigits2 m <= 53) by (apply Zdigits2_le_prec; lia).
      assert (Hd' : - 1074 < e -> 53 <= Zdigits2 m).
      { intros Hlt. apply (Zdigits2_ge m 52); [lia | auto]. }
      rewrite shr_nonpos by lia.
      cbn [shr_record_of_loc shr_m].
      replace (m =? 0) with false by (symmetry; apply Z.eqb_neq; assumption).
      replace (m =? 2 ^ prec) with false by (symmetry; apply Z.eqb_neq; assumption).
      destruct m as [| p | p]; try lia. reflexivity.
Qed.

Lemma binary_round_aux_spec (sx : bool) (mx ex : Z) (lx : location) (v : R) :
  0 <= mx ->
  located (shr_record_of_loc mx lx) (v * bpow (- ex)) ->
  ex <= fexp prec emax (Zdigits2 mx + ex) ->
  exists m e : Z,
    binary_round_aux prec emax sx mx ex lx = round_result sx m e
    /\ grid_nearest m e v.
Proof.
  intros Hmx Hloc Hex. rewrite fexp_unfold in Hex.
  unfold binary_round_aux, shr_fexp at 1. rewrite fexp_unfold.
  set (d := Zdigits2 mx) in *.
  set (e1 := Z.max (d + ex - 53) (- 1074)) in *.
  assert (Hst0 : 0 <= shr_m (shr_record_of_loc mx lx)) by now rewrite shr_m_of_loc.
  destruct (shr_located _ ex (e1 - ex) v Hst0 Hloc) as (L1 & M1 & E1).
  rewrite Z.max_r in L1, M1, E1 by lia.
  replace (ex + (e1 - ex)) with e1 in L1, E1 by lia.
  rewrite shr_m_of_loc in M1.
  destruct (shr (shr_record_of_loc mx lx) ex (e1 - ex)) as [st1 e1'].
  cbn [fst snd] in L1, M1, E1. subst e1'.
  pose proof (Zdigits2_nonneg mx) as Hd0. fold d in Hd0.
  (* the truncated mantissa *)
  assert (Hm1 : 0 <= shr_m st1 < 2 ^ 53).
  { rewrite M1. split; [apply Z.div_pos; [lia | apply Z.pow_pos_nonneg; lia] |].
    destruct (Z.eq_dec mx 0) as [-> | Hne]; [now rewrite Z.div_0_l by (apply Z.pow_nonzero; lia) |].
    pose proof (Zdigits2_shiftr mx (e1 - ex) ltac:(lia) ltac:(lia)) as Hs. fold d in Hs.
    destruct (Z.eq_dec (mx / 2 ^ (e1 - ex)) 0) as [-> | Hq]; [lia |].
    assert (Hq0 : 0 < mx / 2 ^ (e1 - ex)).
    { assert (0 <= mx / 2 ^ (e1 - ex)) by (apply Z.div_pos; [lia | apply Z.pow_pos_nonneg; lia]). lia. }
    pose proof (Zdigits2_bounds _ Hq0) as [_ Hhi].
    eapply Z.lt_le_trans; [exact Hhi |]. apply Z.pow_le_mono_r; lia. }
  assert (Hnorm : - 1074 < e1 -> 2 ^ 52 <= shr_m st1).
  { intros Hlt.
    assert (Hmx0 : 0 < mx).
    { destruct (Z.eq_dec mx 0) as [E | E]; [| lia]. exfalso.
      subst mx. unfold d in *. cbn [Zdigits2] in *. lia. }
    pose proof (Zdigits2_shiftr mx (e1 - ex) Hmx0 ltac:(lia)) as Hs. fold d in Hs.
    rewrite <- M1 in Hs.
    assert (Hd1 : Zdigits2 (shr_m st1) = 53) by lia.
    assert (Hpos1 : 0 < shr_m st1).
    { destruct (Z.eq_dec (shr_m st1) 0) as [E | E]; [| lia]. rewrite E in Hd1. discriminate. }
    pose proof (Zdigits2_bounds _ Hpos1) as [Hlo _]. rewrite Hd1 in Hlo. exact Hlo. }
  pose proof (round_nearest_even_located st1 _ L1) as (Hm2 & Hnear & Hfloor & Heven).
  set (m2 := round_nearest_even (shr_m st1) (loc_of_shr_record st1)) in *.
  exists m2, e1.
  split.
  { apply round_result_second_shift; lia. }
  unfold grid_nearest.
  split; [lia |].
  split; [lia |].
  split; [exact Hnear |].
  split; [exact Heven |].
  pose proof (bpow_gt_0 e1) as Hb. pose proof (bpow_opp e1) as Hinv.
  assert (Hv : (v * bpow (- e1) * bpow e1 = v)%R).
  { rewrite Rmult_assoc, (Rmult_comm (bpow (- e1))), Hinv. ring. }
  split.
  - intros Hlt. split; [pose proof (Hnorm Hlt); lia |].
    pose proof (Hnorm Hlt) as H52. apply IZR_le in H52.
    rewrite <- bpow_IZR in H52 by lia.
    rewrite (Z.add_comm e1 52), bpow_add.
    assert (bpow 52 * bpow e1 <= v * bpow (- e1) * bpow e1)%R by nra.
    lra.
  - assert (H53 : (IZR (shr_m st1) + 1 <= bpow 53)%R).
    { rewrite bpow_IZR by lia. rewrite <- plus_IZR. apply IZR_le. lia. }
    rewrite (Z.add_comm e1 53), bpow_add.
    assert (v * bpow (- e1) * bpow e1 < bpow 53 * bpow e1)%R by nra.
    lra.
Qed.

(** ** The rounded value stays on the right side of grid points *)

Lemma bpow_lt_inv (a b : Z) : (bpow a < bpow b)%R -> a < b.
Proof.
  intros H. destruct (Z_lt_dec a b) as [Hlt | Hge]; [assumption |].
  exfalso. assert (bpow b <= bpow a)%R by (apply bpow_le; lia). lra.
Qed.

Lemma F2R_bpow (k e : Z) : 0 <= k -> F2R (2 ^ k) e = bpow (k + e).
Proof. intros Hk. unfold F2R. now rewrite <- bpow_IZR, bpow_add. Qed.

Lemma F2R_scaled (m e : Z) : (F2R m e * bpow (- e))%R = IZR m.
Proof. unfold F2R. rewrite Rmult_assoc, bpow_opp. ring. Qed.

Lemma scaled_le (v w : R) (e : Z) : (v <= w)%R -> (v * bpow (- e) <= w * bpow (- e))%R.
Proof. intros H. pose proof (bpow_gt_0 (- e)). nra. Qed.

Lemma representable_lt (B : R) (mB eB : Z) :
  B = F2R mB eB -> 0 <= mB < 2 ^ 53 -> (B < bpow (53 + eB))%R.
Proof.
  intros -> [H0 H1]. rewrite <- F2R_bpow by lia. apply F2R_lt. exact H1.
Qed.

Lemma grid_le (m e : Z) (v B : R) :
  - 1074 <= e ->
  (IZR m - 1 < v * bpow (- e))%R ->
  (- 1074 < e -> (bpow (e + 52) <= v)%R) ->
  representable B -> (v <= B)%R ->
  (F2R m e <= B)%R.
Proof.
  intros He Hnear Hnorm (mB & eB & HB & HmB & HeB) HvB.
  destruct (Z_le_dec e eB) as [Hle | Hgt].
  - assert (HB' : B = F2R (mB * 2 ^ (eB - e)) e).
    { rewrite HB. symmetry. replace e with (eB - (eB - e)) at 2 by lia.
      apply F2R_shift. lia. }
    rewrite HB'. apply F2R_le.
    apply scaled_le with (e := e) in HvB. rewrite HB', F2R_scaled in HvB.
    assert (Hlt : (IZR m < IZR (mB * 2 ^ (eB - e) + 1))%R) by (rewrite plus_IZR; lra).
    apply lt_IZR in Hlt. lia.
  - exfalso.
    pose proof (representable_lt B mB eB HB HmB) as Hlt.
    assert (bpow (53 + eB) <= bpow (e + 52))%R by (apply bpow_le; lia).
    pose proof (Hnorm ltac:(lia)). lra.
Qed.

Lemma grid_ge (m e : Z) (v A : R) :
  (v * bpow (- e) < IZR m + 1)%R ->
  (- 1074 < e -> 2 ^ 52 <= m) ->
  representable A -> (A <= v)%R ->
  (A <= F2R m e)%R.
Proof.
  intros Hnear Hnorm (mA & eA & HA & HmA & HeA) HAv.
  destruct (Z_le_dec e eA) as [Hle | Hgt].
  - assert (HA' : A = F2R (mA * 2 ^ (eA - e)) e).
    { rewrite HA. symmetry. replace e with (eA - (eA - e)) at 2 by lia.
      apply F2R_shift. lia. }
    rewrite HA'. apply F2R_le.
    apply scaled_le with (e := e) in HAv. rewrite HA', F2R_scaled in HAv.
    assert (Hlt : (IZR (mA * 2 ^ (eA - e)) < IZR (m + 1))%R) by (rewrite plus_IZR; lra).
    apply lt_IZR in Hlt. lia.
  - pose proof (representable_lt A mA eA HA HmA) as Hlt.
    assert (Hexp : (bpow (53 + eA) <= bpow (52 + e))%R) by (apply bpow_le; lia).
    assert (Hm52 : (F2R (2 ^ 52) e <= F2R m e)%R) by (apply F2R_le; apply Hnorm; lia).
    rewrite F2R_bpow in Hm52 by lia. lra.
Qed.

(** A rounded mantissa that does not exceed a grid point gives a finite
    [double] in canonical form. *)
Lemma round_result_finite (sx : bool) (m e : Z) (B : R) :
  0 <= m <= 2 ^ 53 -> - 1074 <= e ->
  (- 1074 < e -> 2 ^ 52 <= m) ->
  representable B -> (F2R m e <= B)%R ->
  (m = 0 /\ round_result sx m e = S754_zero sx)
  \/ (0 < m /\ exists (p : positive) (e' : Z),
        round_result sx m e = S754_finite sx p e'
        /\ bounded prec emax p e' = true
        /\ F2R (Zpos p) e' = F2R m e).
Proof.
  intros Hm He Hnorm (mB & eB & HB & HmB & HeB) Hle.
  pose proof (representable_lt B mB eB HB HmB) as HBlt.
  assert (HBmax : (B < bpow 1024)%R).
  { eapply Rlt_le_trans; [exact HBlt | apply bpow_le; lia]. }
  unfold round_result.
  destruct (Z.eq_dec m 0) as [-> | Hm0]; [left; auto |].
  right. split; [lia |].
  replace (m =? 0) with false by (symmetry; apply Z.eqb_neq; assumption).
  destruct (Z.eq_dec m (2 ^ 53)) as [-> | Hm53].
  - change (2 ^ 53 =? 2 ^ prec) with true. cbv iota.
    rewrite F2R_bpow in Hle by lia.
    assert (53 + e < 1024) by (apply bpow_lt_inv; lra).
    replace (e + 1 <=? emax - prec) with true
      by (symmetry; apply Z.leb_le; unfold emax, prec; lia).
    exists (Z.to_pos (2 ^ (prec - 1))), (e + 1). split; [reflexivity |].
    split.
    + unfold bounded, canonical_mantissa. rewrite fexp_unfold.
      change (Zpos (digits2_pos (Z.to_pos (2 ^ (prec - 1))))) with 53.
      apply andb_true_intro. split; [apply Z.eqb_eq; lia |].
      apply Z.leb_le. unfold emax, prec. lia.
    + change (Zpos (Z.to_pos (2 ^ (prec - 1)))) with (2 ^ 52).
      rewrite !F2R_bpow by lia. f_equal. lia.
  - replace (m =? 2 ^ prec) with false by (symmetry; apply Z.eqb_neq; assumption).
    assert (He971 : e <= 971).
    { destruct (Z_le_dec e 971) as [Hc | Hc]; [assumption |]. exfalso.
      assert (Hm52 : (F2R (2 ^ 52) e <= F2R m e)%R) by (apply F2R_le; apply Hnorm; lia).
      rewrite F2R_bpow in Hm52 by lia.
      assert (Hexp : (bpow 1024 <= bpow (52 + e))%R) by (apply bpow_le; lia). lra. }
    replace (e <=? emax - prec) with true
      by (symmetry; apply Z.leb_le; unfold emax, prec; lia).
    exists (Z.to_pos m), e. split; [reflexivity |].
    rewrite Z2Pos.id by lia. split; [| reflexivity].
    unfold bounded, canonical_mantissa. rewrite fexp_unfold.
    change (Zpos (digits2_pos (Z.to_pos m))) with (Zdigits2 (Zpos (Z.to_pos m))).
    rewrite Z2Pos.id by lia.
    assert (Hd : Zdigits2 m <= 53) by (apply Zdigits2_le_prec; lia).
    assert (Hd' : - 1074 < e -> 53 <= Zdigits2 m).
    { intros Hlt. apply (Zdigits2_ge m 52); [lia | auto]. }
    apply andb_true_intro. split; [apply Z.eqb_eq; lia |].
    apply Z.leb_le. unfold emax, prec. lia.
Qed.

(** ** Rounding to nearest as a relation on reals *)

Lemma rounded_value_exact (w : R) : representable w -> rounded_value w w.
Proof.
  intros (m & e & -> & Hm & He).
  destruct (Z.eq_dec m 0) as [-> | Hm0].
  - exists 0, (- 1074). rewrite !F2R_0. split; [reflexivity |].
    pose proof (bpow_gt_0 (- 1074 + 53)).
    unfold grid_nearest. rewrite Rmult_0_l.
    repeat split; try lia; try lra.
  - set (d := Zdigits2 m).
    assert (Hd : 1 <= d <= 53).
    { split; [apply (Zdigits2_ge m 0); lia | apply Zdigits2_le_prec; lia]. }
    set (ec := Z.max (d + e - 53) (- 1074)).
    set (mc := m * 2 ^ (e - ec)).
    assert (Hshift : F2R mc ec = F2R m e).
    { unfold mc. replace ec with (e - (e - ec)) at 2 by lia.
      apply F2R_shift. unfold ec. lia. }
    assert (Hdc : Zdigits2 mc = d + (e - ec)) by (apply Zdigits2_mul_pow2; unfold ec; lia).
    assert (Hmc0 : 0 < mc).
    { unfold mc. pose proof (Z.pow_pos_nonneg 2 (e - ec) ltac:(lia) ltac:(unfold ec; lia)). nia. }
    pose proof (Zdigits2_bounds mc Hmc0) as [Hlo Hhi]. rewrite Hdc in Hlo, Hhi.
    assert (Hmc53 : mc < 2 ^ 53).
    { eapply Z.lt_le_trans; [exact Hhi |]. apply Z.pow_le_mono_r; unfold ec; lia. }
    exists mc, ec. split; [now rewrite Hshift |].
    rewrite <- Hshift. unfold grid_nearest. rewrite F2R_scaled.
    split; [unfold ec; lia |]. split; [lia |]. split; [lra |].
    split; [intros [E | E]; exfalso; lra |].
    split.
    + intros Hlt. assert (Hec : ec = d + e - 53) by (unfold ec in *; lia).
      assert (H52 : 2 ^ 52 <= mc).
      { replace 52 with (d + (e - ec) - 1) by lia. exact Hlo. }
      split; [exact H52 |].
      rewrite Z.add_comm, <- F2R_bpow by lia. now apply F2R_le.
    + rewrite Z.add_comm, <- F2R_bpow by lia. now apply F2R_lt.
Qed.

Lemma rounded_value_monotone (v1 w1 v2 w2 : R) :
  rounded_value v1 w1 -> rounded_value v2 w2 -> (v1 <= v2)%R -> (w1 <= w2)%R.
Proof.
  intros (m1 & e1 & -> & He1 & Hm1 & Hnear1 & Hev1 & Hnorm1 & Hmag1)
         (m2 & e2 & -> & He2 & Hm2 & Hnear2 & Hev2 & Hnorm2 & Hmag2) Hle.
  assert (He : e1 <= e2).
  { destruct (Z_le_dec e1 e2) as [H | H]; [assumption |]. exfalso.
    destruct (Hnorm1 ltac:(lia)) as [_ Hlo].
    assert (e1 + 52 < e2 + 53) by (apply bpow_lt_inv; lra). lia. }
  destruct (Z.eq_dec e1 e2) as [<- | Hne].
  - apply F2R_le.
    destruct (Z_le_dec m1 m2) as [H | H]; [assumption |]. exfalso.
    apply scaled_le with (e := e1) in Hle.
    assert (H1 : (IZR m2 + 1 <= IZR m1)%R) by (rewrite <- plus_IZR; apply IZR_le; lia).
    assert (Hm : m1 = m2 + 1).
    { apply eq_IZR. rewrite plus_IZR. lra. }
    assert (E1 : Z.even m1 = true) by (apply Hev1; left; lra).
    assert (E2 : Z.even m2 = true) by (apply Hev2; right; lra).
    rewrite Hm, Z.even_add, E2 in E1. discriminate.
  - destruct (Hnorm2 ltac:(lia)) as [H52 _].
    apply Rle_trans with (F2R (2 ^ 53) e1); [apply F2R_le; lia |].
    apply Rle_trans with (F2R (2 ^ 52) e2); [| apply F2R_le; lia].
    rewrite !F2R_bpow by lia. apply bpow_le. lia.
Qed.

(** ** Rounding between two grid points *)

Lemma binary_round_aux_between (mx ex : Z) (lx : location) (v A B : R) :
  0 <= mx ->
  located (shr_record_of_loc mx lx) (v * bpow (- ex)) ->
  ex <= fexp prec emax (Zdigits2 mx + ex) ->
  representable A -> representable B -> (A <= v <= B)%R ->
  nonneg_double (binary_round_aux prec emax false mx ex lx)
  /\ (A <= SF2R (binary_round_aux prec emax false mx ex lx) <= B)%R
  /\ rounded_value v (SF2R (binary_round_aux prec emax false mx ex lx)).
Proof.
  intros Hmx Hloc Hex HA HB [HAv HvB].
  destruct (binary_round_aux_spec false mx ex lx v Hmx Hloc Hex)
    as (m & e & -> & Hgrid).
  pose proof Hgrid as (He & Hm & Hnear & Heven & Hnorm & Hmag).
  assert (Hle : (F2R m e <= B)%R).
  { apply (grid_le m e v B); auto; [lra | intros H; now apply Hnorm]. }
  assert (Hge : (A <= F2R m e)%R).
  { apply (grid_ge m e v A); auto; [lra | intros H; now apply Hnorm]. }
  destruct (round_result_finite false m e B Hm He (fun H => proj1 (Hnorm H)) HB Hle)
    as [[-> ->] | (Hpos & p & e' & -> & Hb & Hv)].
  - cbn [nonneg_double SF2R]. rewrite F2R_0 in Hle, Hge.
    split; [exact I |]. split; [lra |].
    exists 0, e. rewrite F2R_0. auto.
  - cbn [nonneg_double SF2R cond_Zopp]. rewrite Hv.
    split; [auto |]. split; [auto |]. exists m, e. auto.
Qed.

(** ** Aligning a mantissa to a smaller exponent *)

Lemma shl_align_spec (mx : positive) (ex ex' : Z) :
  snd (shl_align mx ex ex') = Z.min ex ex'
  /\ Zpos (fst (shl_align mx ex ex')) = Zpos mx * 2 ^ (ex - Z.min ex ex').
Proof.
  unfold shl_align. destruct (ex' - ex) as [| d | d] eqn:E; cbn [fst snd].
  - rewrite Z.min_l by lia. rewrite Z.sub_diag. lia.
  - rewrite Z.min_l by lia. rewrite Z.sub_diag. lia.
  - rewrite Z.min_r by lia. split; [reflexivity |].
    change (Pos.iter xO mx d) with (shift_pos d mx).
    rewrite shift_pos_correct. change (Z.pow_pos 2 d) with (2 ^ Zpos d).
    replace (ex - ex') with (Zpos d) by lia. lia.
Qed.

Lemma F2R_shl_align (mx : positive) (ex ex' : Z) :
  F2R (Zpos (fst (shl_align mx ex ex'))) (snd (shl_align mx ex ex')) = F2R (Zpos mx) ex.
Proof.
  destruct (shl_align_spec mx ex ex') as [-> ->].
  replace (Z.min ex ex') with (ex - (ex - Z.min ex ex')) at 2 by lia.
  apply F2R_shift. lia.
Qed.

Lemma binary_round_between (mx : positive) (ex : Z) (A B : R) :
  representable A -> representable B -> (A <= F2R (Zpos mx) ex <= B)%R ->
  nonneg_double (binary_round prec emax false mx ex)
  /\ (A <= SF2R (binary_round prec emax false mx ex) <= B)%R
  /\ rounded_value (F2R (Zpos mx) ex) (SF2R (binary_round prec emax false mx ex)).
Proof.
  intros HA HB Hv. unfold binary_round.
  pose proof (shl_align_spec mx ex (fexp prec emax (Zpos (digits2_pos mx) + ex))) as [Hs Hf].
  pose proof (F2R_shl_align mx ex (fexp prec emax (Zpos (digits2_pos mx) + ex))) as HF.
  destruct (shl_align mx ex (fexp prec emax (Zpos (digits2_pos mx) + ex))) as [mz ez].
  cbn [fst snd] in Hs, Hf, HF.
  apply binary_round_aux_between with (v := F2R (Zpos mx) ex); auto; try lia.
  - cbn [shr_record_of_loc]. unfold located. cbn [shr_r shr_s shr_m].
    rewrite <- HF. apply F2R_scaled.
  - rewrite Hf. rewrite Zdigits2_mul_pow2 by lia.
    change (Zdigits2 (Zpos mx)) with (Zpos (digits2_pos mx)).
    rewrite Hs at 1.
    replace (Zpos (digits2_pos mx) + (ex - Z.min ex (fexp prec emax (Zpos (digits2_pos mx) + ex))) + ez)
      with (Zpos (digits2_pos mx) + ex) by lia.
    lia.
Qed.

Lemma binary_normalize_between (m e : Z) (A B : R) :
  0 <= m -> representable A -> representable B -> (A <= F2R m e <= B)%R ->
  nonneg_double (binary_normalize prec emax m e false)
  /\ (A <= SF2R (binary_normalize prec emax m e false) <= B)%R
  /\ rounded_value (F2R m e) (SF2R (binary_normalize prec emax m e false)).
Proof.
  intros Hm HA HB Hv. destruct m as [| p | p]; try lia.
  - cbn [binary_normalize nonneg_double SF2R]. rewrite F2R_0 in *.
    split; [exact I |]. split; [exact Hv |].
    apply rounded_value_exact. exists 0, 0. rewrite F2R_0. repeat split; lia.
  - cbn [binary_normalize]. now apply binary_round_between.
Qed.

(** ** Doubles in canonical form *)

Lemma representable_nonneg (A : R) : representable A -> (0 <= A)%R.
Proof.
  intros (m & e & -> & Hm & _). rewrite <- (F2R_0 e). apply F2R_le. lia.
Qed.

Lemma bounded_spec (m : positive) (e : Z) :
  bounded prec emax m e = true ->
  Zpos m < 2 ^ 53 /\ - 1074 <= e <= 971 /\ (- 1074 < e -> 2 ^ 52 <= Zpos m).
Proof.
  unfold bounded, canonical_mantissa. rewrite fexp_unfold.
  intros H. apply andb_prop in H as [Hc He].
  apply Z.eqb_eq in Hc. apply Z.leb_le in He. unfold emax, prec in He.
  change (Zpos (digits2_pos m)) with (Zdigits2 (Zpos m)) in Hc.
  pose proof (Zdigits2_bounds (Zpos m) ltac:(lia)) as [Hlo Hhi].
  assert (Hd : Zdigits2 (Zpos m) <= 53) by lia.
  split; [| split; [lia |]].
  - eapply Z.lt_le_trans; [exact Hhi |]. apply Z.pow_le_mono_r; lia.
  - intros Hlt. assert (Zdigits2 (Zpos m) = 53) by lia.
    now replace 52 with (Zdigits2 (Zpos m) - 1) by lia.
Qed.

Lemma bounded_representable (m : positive) (e : Z) :
  bounded prec emax m e = true -> representable (F2R (Zpos m) e).
Proof.
  intros H. apply bounded_spec in H as (Hm & He & _).
  exists (Zpos m), e. repeat split; lia.
Qed.

Lemma nonneg_double_representable (d : double) : nonneg_double d -> representable (SF2R d).
Proof.
  destruct d as [s | s | | s m e]; cbn [nonneg_double SF2R]; try contradiction.
  - intros _. exists 0, 0. rewrite F2R_0. repeat split; lia.
  - intros [-> Hb]. now apply bounded_representable.
Qed.

Lemma nonneg_double_ge_0 (d : double) : nonneg_double d -> (0 <= SF2R d)%R.
Proof. intros H. apply representable_nonneg. now apply nonneg_double_representable. Qed.

Lemma nonneg_double_pos (d : double) :
  nonneg_double d -> (0 < SF2R d)%R ->
  exists m e, d = S754_finite false m e /\ bounded prec emax m e = true.
Proof.
  destruct d as [s | s | | s m e]; cbn [nonneg_double SF2R]; try contradiction.
  - intros _ H. lra.
  - intros [-> Hb] _. eauto.
Qed.


(** ** Addition and subtraction *)

Lemma F2R_pos (p : positive) (e : Z) : (0 < F2R (Zpos p) e)%R.
Proof. rewrite <- (F2R_0 e). apply F2R_lt. lia. Qed.

Lemma aligned_value (s : bool) (m : positive) (e ez : Z) :
  ez <= e ->
  F2R (cond_Zopp s (Zpos (fst (shl_align m e ez)))) ez = F2R (cond_Zopp s (Zpos m)) e.
Proof.
  intros Hle. pose proof (F2R_shl_align m e ez) as HF.
  destruct (shl_align_spec m e ez) as [Hs _]. rewrite Hs, Z.min_r in HF by assumption.
  destruct s; cbn [cond_Zopp]; [rewrite !F2R_opp |]; now rewrite HF.
Qed.

Lemma nonneg_finite_sign (s : bool) (m : positive) (e : Z) :
  (0 <= SF2R (S754_finite s m e))%R -> s = false.
Proof.
  destruct s; [| reflexivity]. cbn [SF2R cond_Zopp]. intros H. exfalso.
  change (Z.opp (Zpos m)) with (- Zpos m) in H. rewrite F2R_opp in H.
  pose proof (F2R_pos m e). lra.
Qed.

Lemma representable_0 : representable 0%R.
Proof. exists 0, 0. rewrite F2R_0. repeat split; lia. Qed.

Lemma finite_double_nonneg (d : double) :
  finite_double d -> (0 <= SF2R d)%R -> nonneg_double d.
Proof.
  destruct d as [s | s | | s m e]; cbn [finite_double nonneg_double]; auto.
  intros Hb H0. split; [now apply (nonneg_finite_sign s m e) | exact Hb].
Qed.

Lemma SF2R_negb (s : bool) (m : positive) (e : Z) :
  SF2R (S754_finite (negb s) m e) = (- SF2R (S754_finite s m e))%R.
Proof.
  destruct s; cbn [SF2R negb cond_Zopp];
    change (Z.opp (Zpos m)) with (- Zpos m); rewrite F2R_opp; lra.
Qed.

(** A result that is one of the operands: nothing is rounded. *)
Lemma exact_between (d : double) (A B v : R) :
  finite_double d -> representable A -> (A <= v <= B)%R -> SF2R d = v ->
  nonneg_double d /\ (A <= SF2R d <= B)%R /\ rounded_value v (SF2R d).
Proof.
  intros Hd HA Hv E. pose proof (representable_nonneg A HA) as HA0.
  assert (Hn : nonneg_double d) by (apply finite_double_nonneg; [assumption | lra]).
  split; [exact Hn |]. split; [lra |].
  rewrite <- E. apply rounded_value_exact. now apply nonneg_double_representable.
Qed.

Lemma dadd_between (a b : double) (A B : R) :
  finite_double a -> finite_double b ->
  representable A -> representable B ->
  (A <= SF2R a + SF2R b <= B)%R ->
  nonneg_double (dadd a b) /\ (A <= SF2R (dadd a b) <= B)%R
  /\ rounded_value (SF2R a + SF2R b) (SF2R (dadd a b)).
Proof.
  intros Ha Hb HA HB Hv. pose proof (representable_nonneg A HA) as HA0.
  destruct a as [sa | sa | | sa ma ea]; try contradiction;
    destruct b as [sb | sb | | sb mb eb]; try contradiction.
  - assert (Hz : exists s, dadd (S754_zero sa) (S754_zero sb) = S754_zero s)
      by (destruct sa, sb; cbn; eauto).
    destruct Hz as [s ->]. apply exact_between; auto. cbn [SF2R]. lra.
  - unfold dadd. cbn [SFadd]. apply exact_between; auto. cbn [SF2R]. lra.
  - unfold dadd. cbn [SFadd]. apply exact_between; auto. cbn [SF2R]. lra.
  - unfold dadd. cbn [SFadd]. cbn [SF2R] in *.
    set (ez := Z.min ea eb).
    pose proof (aligned_value sa ma ea ez ltac:(unfold ez; lia)) as Va.
    pose proof (aligned_value sb mb eb ez ltac:(unfold ez; lia)) as Vb.
    set (ia := cond_Zopp sa (Zpos (fst (shl_align ma ea ez)))) in *.
    set (ib := cond_Zopp sb (Zpos (fst (shl_align mb eb ez)))) in *.
    assert (Hsum : F2R (ia + ib) ez = (F2R (cond_Zopp sa (Zpos ma)) ea + F2R (cond_Zopp sb (Zpos mb)) eb)%R).
    { now rewrite F2R_add, Va, Vb. }
    rewrite <- Hsum in *.
    apply binary_normalize_between; auto.
    apply (F2R_le 0 (ia + ib) ez). rewrite F2R_0. lra.
Qed.

Lemma dsub_between (a b : double) (A B : R) :
  finite_double a -> finite_double b ->
  representable A -> representable B ->
  (A <= SF2R a - SF2R b <= B)%R ->
  nonneg_double (dsub a b) /\ (A <= SF2R (dsub a b) <= B)%R
  /\ rounded_value (SF2R a - SF2R b) (SF2R (dsub a b)).
Proof.
  intros Ha Hb HA HB Hv. pose proof (representable_nonneg A HA) as HA0.
  destruct a as [sa | sa | | sa ma ea]; try contradiction;
    destruct b as [sb | sb | | sb mb eb]; try contradiction.
  - assert (Hz : exists s, dsub (S754_zero sa) (S754_zero sb) = S754_zero s)
      by (destruct sa, sb; cbn; eauto).
    destruct Hz as [s ->]. apply exact_between; auto. cbn [SF2R]. lra.
  - unfold dsub. cbn [SFsub]. apply exact_between; auto.
    rewrite SF2R_negb. cbn [SF2R]. lra.
  - unfold dsub. cbn [SFsub]. apply exact_between; auto. cbn [SF2R]. lra.
  - unfold dsub. cbn [SFsub]. cbn [SF2R] in *.
    set (ez := Z.min ea eb).
    pose proof (aligned_value sa ma ea ez ltac:(unfold ez; lia)) as Va.
    pose proof (aligned_value sb mb eb ez ltac:(unfold ez; lia)) as Vb.
    set (ia := cond_Zopp sa (Zpos (fst (shl_align ma ea ez)))) in *.
    set (ib := cond_Zopp sb (Zpos (fst (shl_align mb eb ez)))) in *.
    assert (Hsum : F2R (ia - ib) ez = (F2R (cond_Zopp sa (Zpos ma)) ea - F2R (cond_Zopp sb (Zpos mb)) eb)%R).
    { unfold Z.sub. rewrite F2R_add, F2R_opp, Va, Vb. lra. }
    rewrite <- Hsum in *.
    apply binary_normalize_between; auto.
    apply (F2R_le 0 (ia - ib) ez). rewrite F2R_0. lra.
Qed.

(** ** Division *)

Lemma new_location_located (q r d : Z) :
  0 < d -> 0 <= r < d ->
  located (shr_record_of_loc q (new_location d r)) (IZR q + IZR r / IZR d).
Proof.
  intros Hd Hr.
  assert (HdR : (0 < IZR d)%R) by (apply IZR_lt; lia).
  set (t := (IZR r / IZR d)%R).
  assert (Ht : (t * IZR d = IZR r)%R) by (unfold t; field; lra).
  assert (Hcmp : forall c, (2 * r ?= d) = c ->
            located (shr_record_of_loc q (loc_Inexact c)) (IZR q + t) \/ r = 0).
  { intros c Hc. destruct (Z.eq_dec r 0) as [E | E]; [now right | left].
    assert (Hr0 : (0 < IZR r)%R) by (apply IZR_lt; lia).
    destruct c; unfold located; cbn [shr_record_of_loc shr_r shr_s shr_m].
    - apply Z.compare_eq in Hc. apply (f_equal IZR) in Hc. rewrite mult_IZR in Hc.
      assert (t = / 2)%R by nra. lra.
    - rewrite Z.compare_lt_iff in Hc. apply IZR_lt in Hc. rewrite mult_IZR in Hc. nra.
    - rewrite Z.compare_gt_iff in Hc. apply IZR_lt in Hc. rewrite mult_IZR in Hc.
      assert (IZR r < IZR d)%R by (apply IZR_lt; lia). nra. }
  unfold new_location. destruct (Z.even d) eqn:Ev.
  - unfold new_location_even. destruct (r =? 0) eqn:E0.
    + apply Z.eqb_eq in E0. subst r. unfold located. cbn. unfold t.
      change (IZR 0) with 0%R. unfold Rdiv. lra.
    + apply Z.eqb_neq in E0. destruct (Hcmp _ eq_refl) as [Hl | Hl]; [exact Hl | contradiction].
  - unfold new_location_odd. destruct (r =? 0) eqn:E0.
    + apply Z.eqb_eq in E0. subst r. unfold located. cbn. unfold t.
      change (IZR 0) with 0%R. unfold Rdiv. lra.
    + apply Z.eqb_neq in E0.
      assert (Hodd : 2 * r <> d).
      { intros <-. rewrite Z.even_mul in Ev. discriminate. }
      destruct (2 * r + 1 ?= d) eqn:C.
      * apply Z.compare_eq in C.
        destruct (Hcmp Lt) as [Hl | Hl]; [apply Z.compare_lt_iff; lia | exact Hl | contradiction].
      * rewrite Z.compare_lt_iff in C.
        destruct (Hcmp Lt) as [Hl | Hl]; [apply Z.compare_lt_iff; lia | exact Hl | contradiction].
      * rewrite Z.compare_gt_iff in C.
        destruct (Hcmp Gt) as [Hl | Hl]; [apply Z.compare_gt_iff; lia | exact Hl | contradiction].
Qed.

Lemma SFdiv_core_binary_spec (m1 m2 : positive) (e1 e2 : Z) :
  let '(q, e', l) := SFdiv_core_binary prec emax (Zpos m1) e1 (Zpos m2) e2 in
  0 <= q
  /\ located (shr_record_of_loc q l)
       (F2R (Zpos m1) e1 / F2R (Zpos m2) e2 * bpow (- e'))
  /\ e' <= fexp prec emax (Zdigits2 q + e').
Proof.
  unfold SFdiv_core_binary. rewrite !fexp_unfold.
  set (d1 := Zdigits2 (Zpos m1)). set (d2 := Zdigits2 (Zpos m2)).
  set (e' := Z.min (Z.max (d1 + e1 - (d2 + e2) - 53) (- 1074)) (e1 - e2)).
  set (s := e1 - e2 - e').
  assert (Hs : 0 <= s) by (unfold s, e'; lia).
  set (m' := match s with Zpos _ => Z.shiftl (Zpos m1) s | Z0 => Zpos m1 | Zneg _ => 0 end).
  assert (Hm' : m' = Zpos m1 * 2 ^ s).
  { unfold m'. destruct s as [| p | p]; try lia.
    now rewrite Z.shiftl_mul_pow2 by lia. }
  clearbody m'.
  pose proof (Z_div_mod m' (Zpos m2) ltac:(lia)) as Hdm.
  destruct (Z.div_eucl m' (Zpos m2)) as [q r]. destruct Hdm as [Heq Hr].
  assert (H2s : 0 < 2 ^ s) by (apply Z.pow_pos_nonneg; lia).
  assert (Hq : 0 <= q) by nia.
  split; [exact Hq |]. split.
  - replace (F2R (Zpos m1) e1 / F2R (Zpos m2) e2 * bpow (- e'))%R
      with (IZR q + IZR r / IZR (Zpos m2))%R.
    { apply new_location_located; lia. }
    assert (H2 : (0 < IZR (Zpos m2))%R) by (apply IZR_lt; lia).
    pose proof (bpow_gt_0 e2) as Hb2.
    unfold F2R.
    replace (bpow e1) with (bpow s * bpow e2 * bpow e')%R
      by (rewrite <- !bpow_add; f_equal; unfold s; lia).
    pose proof (bpow_opp e') as Hinv.
    apply (f_equal IZR) in Heq. rewrite Hm', plus_IZR, !mult_IZR in Heq.
    rewrite <- bpow_IZR in Heq by assumption.
    transitivity ((IZR (Zpos m1) * bpow s) / IZR (Zpos m2))%R.
    + rewrite Heq. field. lra.
    + transitivity ((IZR (Zpos m1) * bpow s) / IZR (Zpos m2) * (bpow e' * bpow (- e')))%R.
      * rewrite Hinv. ring.
      * field. lra.
  - assert (Hdig : d1 + s - d2 <= Zdigits2 q).
    { pose proof (Zdigits2_nonneg q) as Hdq.
      destruct (Z_le_dec 0 (d1 - 1 + s - d2)) as [Hj | Hj]; [| lia].
      pose proof (Zdigits2_bounds (Zpos m1) ltac:(lia)) as [Hlo1 _]. fold d1 in Hlo1.
      pose proof (Zdigits2_bounds (Zpos m2) ltac:(lia)) as [_ Hhi2]. fold d2 in Hhi2.
      pose proof (Zdigits2_nonneg (Zpos m2)) as Hd2. fold d2 in Hd2.
      assert (Hd1 : 1 <= d1) by (unfold d1; cbn; lia).
      assert (Hp : 2 ^ (d1 - 1 + s - d2) * 2 ^ d2 = 2 ^ (d1 - 1) * 2 ^ s).
      { rewrite <- !Z.pow_add_r by lia. f_equal. lia. }
      assert (Hpj : 0 < 2 ^ (d1 - 1 + s - d2)) by (apply Z.pow_pos_nonneg; lia).
      assert (Hge : 2 ^ (d1 - 1 + s - d2) <= q).
      { destruct (Z_le_dec (2 ^ (d1 - 1 + s - d2)) q) as [Hc | Hc]; [assumption |].
        exfalso. assert (Hq1 : q + 1 <= 2 ^ (d1 - 1 + s - d2)) by lia.
        assert (Hlt : m' < 2 ^ (d1 - 1 + s - d2) * 2 ^ d2) by nia.
        nia. }
      pose proof (Zdigits2_ge q _ Hj Hge). lia. }
    unfold s in Hdig. clearbody d1 d2. subst e'. rewrite fexp_unfold. lia.
Qed.

Lemma ddiv_between (a b : double) (mb : positive) (eb : Z) (A B : R) :
  nonneg_double a -> b = S754_finite false mb eb ->
  representable A -> representable B ->
  (A <= SF2R a / SF2R b <= B)%R ->
  nonneg_double (ddiv a b) /\ (A <= SF2R (ddiv a b) <= B)%R
  /\ rounded_value (SF2R a / SF2R b) (SF2R (ddiv a b)).
Proof.
  intros Ha -> HA HB Hv.
  destruct a as [sa | sa | | sa ma ea]; try contradiction.
  - unfold ddiv. cbn [SFdiv]. apply exact_between; auto.
    cbn [SF2R]. unfold Rdiv. now rewrite Rmult_0_l.
  - destruct Ha as [-> Hbnd]. unfold ddiv. cbn [SFdiv xorb]. cbn [SF2R cond_Zopp] in *.
    pose proof (SFdiv_core_binary_spec ma mb ea eb) as Hcore.
    destruct (SFdiv_core_binary prec emax (Zpos ma) ea (Zpos mb) eb) as [[q e'] l].
    destruct Hcore as (Hq & Hloc & Hex).
    now apply binary_round_aux_between with (v := (F2R (Zpos ma) ea / F2R (Zpos mb) eb)%R).
Qed.

(** ** Multiplication *)

Lemma F2R_mul (m1 m2 e1 e2 : Z) : F2R (m1 * m2) (e1 + e2) = (F2R m1 e1 * F2R m2 e2)%R.
Proof. unfold F2R. rewrite mult_IZR, bpow_add. ring. Qed.

Lemma dmul_between (a b : double) (A B : R) :
  nonneg_double a -> nonneg_double b ->
  representable A -> representable B ->
  (A <= SF2R a * SF2R b <= B)%R ->
  nonneg_double (dmul a b) /\ (A <= SF2R (dmul a b) <= B)%R
  /\ rounded_value (SF2R a * SF2R b) (SF2R (dmul a b)).
Proof.
  intros Ha Hb HA HB Hv.
  destruct a as [sa | sa | | sa ma ea]; try contradiction;
    destruct b as [sb | sb | | sb mb eb]; try contradiction;
    unfold dmul; cbn [SFmul].
  - apply exact_between; auto. cbn [SF2R] in *. lra.
  - apply exact_between; auto. cbn [SF2R] in *. lra.
  - apply exact_between; auto. cbn [SF2R] in *. lra.
  - destruct Ha as [-> Ha]. destruct Hb as [-> Hb]. cbn [xorb].
    cbn [SF2R cond_Zopp] in *.
    apply bounded_spec in Ha as (Ha1 & Ha2 & Ha3).
    apply bounded_spec in Hb as (Hb1 & Hb2 & Hb3).
    apply binary_round_aux_between with (v := (F2R (Zpos ma) ea * F2R (Zpos mb) eb)%R);
      auto; try lia.
    + cbn [shr_record_of_loc]. unfold located. cbn [shr_r shr_s shr_m].
      rewrite <- F2R_mul. rewrite Pos2Z.inj_mul. apply F2R_scaled.
    + rewrite fexp_unfold. rewrite Pos2Z.inj_mul.
      destruct (Z_lt_dec (- 1074) ea) as [Hna | Hna].
      * pose proof (Zdigits2_ge (Zpos ma * Zpos mb) 52 ltac:(lia)
                      ltac:(pose proof (Ha3 Hna); nia)). lia.
      * destruct (Z_lt_dec (- 1074) eb) as [Hnb | Hnb].
        -- pose proof (Zdigits2_ge (Zpos ma * Zpos mb) 52 ltac:(lia)
                         ltac:(pose proof (Hb3 Hnb); nia)). lia.
        -- lia.
Qed.

(** ** Conversions between [int] and [double] *)

Lemma double_of_int_value (n : Z) :
  0 <= n < 2 ^ 53 ->
  nonneg_double (double_of_int n) /\ SF2R (double_of_int n) = IZR n.
Proof.
  intros Hn. unfold double_of_int.
  assert (Hrep : representable (F2R n 0)) by (exists n, 0; repeat split; lia).
  destruct (binary_normalize_between n 0 (F2R n 0) (F2R n 0)) as (Hd & Hv & _);
    auto; try lia; try lra.
  split; [exact Hd |].
  replace (IZR n) with (F2R n 0) by (unfold F2R; rewrite bpow_0; ring). lra.
Qed.

Lemma shiftl_floor (m e : Z) :
  (IZR (Z.shiftl m e) <= F2R m e < IZR (Z.shiftl m e) + 1)%R.
Proof.
  destruct (Z_le_dec 0 e) as [He | He].
  - rewrite Z.shiftl_mul_pow2 by assumption.
    unfold F2R. rewrite mult_IZR, <- bpow_IZR by assumption. lra.
  - rewrite Z.shiftl_div_pow2 by lia.
    set (k := - e). assert (Hk : 0 < k) by (unfold k; lia).
    assert (HP : 0 < 2 ^ k) by (apply Z.pow_pos_nonneg; lia).
    pose proof (Z.div_mod m (2 ^ k) ltac:(lia)) as Hdm.
    pose proof (Z.mod_pos_bound m (2 ^ k) HP) as Hmod.
    unfold F2R. replace e with (- k) by (unfold k; lia).
    pose proof (bpow_opp k) as Hinv. pose proof (bpow_gt_0 (- k)) as Hb.
    rewrite bpow_IZR in Hinv by lia.
    apply (f_equal IZR) in Hdm. rewrite plus_IZR, mult_IZR in Hdm.
    destruct Hmod as [Hm0 Hm1]. apply IZR_le in Hm0. apply IZR_lt in Hm1.
    set (q := IZR (m / 2 ^ k)) in *. set (r := IZR (m mod 2 ^ k)) in *.
    set (P := IZR (2 ^ k)) in *. set (b := bpow (- k)) in *.
    rewrite Hdm.
    replace ((P * q + r) * b)%R with (q * (P * b) + r * b)%R by ring.
    rewrite Hinv. nra.
Qed.

Lemma int32_of_double_nonneg (q : double) (N : Z) :
  nonneg_double q -> (SF2R q <= IZR N)%R -> N < 2 ^ 31 ->
  exists i, int32_of_double q = Ok i /\ 0 <= i <= N
            /\ (IZR i <= SF2R q < IZR i + 1)%R.
Proof.
  intros Hq Hle HN. pose proof (nonneg_double_ge_0 q Hq) as H0.
  destruct q as [s | s | | s m e]; cbn [nonneg_double] in Hq; try contradiction.
  - exists 0. cbn [int32_of_double SF2R] in *.
    split; [reflexivity |]. split; [| lra].
    split; [lia |]. apply le_IZR. lra.
  - destruct Hq as [-> Hb]. cbn [int32_of_double cond_Zopp SF2R] in *.
    pose proof (shiftl_floor (Zpos m) e) as [Hf1 Hf2].
    set (i := Z.shiftl (Zpos m) e) in *.
    assert (Hi0 : 0 <= i) by (apply Z.shiftl_nonneg; lia).
    assert (HiN : i <= N) by (apply le_IZR; lra).
    exists i. rewrite is_int32_true by (change (2 ^ 31) with 2147483648 in *; lia).
    repeat split; auto.
Qed.

(** ** Comparison of doubles *)

Lemma magnitude_le (ma mb : positive) (ea eb : Z) :
  bounded prec emax ma ea = true -> bounded prec emax mb eb = true ->
  ea < eb \/ (ea = eb /\ (ma <= mb)%positive) ->
  (F2R (Zpos ma) ea <= F2R (Zpos mb) eb)%R.
Proof.
  intros Ha Hb Hcmp.
  apply bounded_spec in Ha as (Ha1 & Ha2 & Ha3).
  apply bounded_spec in Hb as (Hb1 & Hb2 & Hb3).
  destruct Hcmp as [Hlt | [-> Hle]].
  - apply Rle_trans with (F2R (2 ^ 53) ea); [apply F2R_le; lia |].
    apply Rle_trans with (F2R (2 ^ 52) eb); [| apply F2R_le; apply Hb3; lia].
    rewrite !F2R_bpow by lia. apply bpow_le. lia.
  - apply F2R_le. lia.
Qed.

Lemma SFleb_le (a b : double) :
  finite_double a -> finite_double b -> SFleb a b = true ->
  (SF2R a <= SF2R b)%R.
Proof.
  intros Ha Hb. unfold SFleb.
  destruct a as [sa | sa | | sa ma ea]; try contradiction;
    destruct b as [sb | sb | | sb mb eb]; try contradiction;
    cbn [SFcompare SF2R finite_double] in *.
  - intros _. lra.
  - destruct sb; [discriminate |]. intros _. cbn [cond_Zopp].
    pose proof (F2R_pos mb eb). lra.
  - destruct sa; [| discriminate]. intros _. cbn [cond_Zopp].
    change (Z.opp (Zpos ma)) with (- Zpos ma). rewrite F2R_opp.
    pose proof (F2R_pos ma ea). lra.
  - change (Pos.compare_cont Eq ma mb) with (Pos.compare ma mb).
    pose proof (F2R_pos ma ea) as Pa. pose proof (F2R_pos mb eb) as Pb.
    destruct sa, sb; cbn [cond_Zopp];
      try change (Z.opp (Zpos ma)) with (- Zpos ma);
      try change (Z.opp (Zpos mb)) with (- Zpos mb);
      rewrite ?F2R_opp; try discriminate; try (intros _; lra).
    + intros H. apply Ropp_le_contravar. apply magnitude_le; auto.
      destruct (Z.compare_spec ea eb) as [E | E | E]; try discriminate.
      * right. split; [auto |].
        destruct (Pos.compare_spec ma mb) as [E' | E' | E']; cbn in H;
          try discriminate; lia.
      * left. lia.
    + intros H. apply magnitude_le; auto.
      destruct (Z.compare_spec ea eb) as [E | E | E]; try discriminate.
      * right. split; [auto |].
        destruct (Pos.compare_spec ma mb) as [E' | E' | E']; try discriminate; lia.
      * left. lia.
Qed.

Lemma SFopp_value (d : double) : SF2R (SFopp d) = (- SF2R d)%R.
Proof.
  destruct d as [s | s | | s m e]; cbn [SFopp SF2R]; try lra.
  apply SF2R_negb.
Qed.

Lemma finite_double_opp (d : double) : finite_double d -> finite_double (SFopp d).
Proof. destruct d; cbn; auto. Qed.

Lemma SFleb_finite_l (a b : double) :
  finite_double b -> is_double a = true ->
  SFleb (SFopp b) a = true -> SFleb a b = true -> finite_double a.
Proof.
  intros Hb Ha. unfold SFleb, is_double in *.
  destruct a as [sa | sa | | sa ma ea]; cbn [finite_double valid_binary] in *; auto.
  - destruct b as [sb | sb | | sb mb eb]; try contradiction;
      cbn [SFopp SFcompare]; destruct sa; discriminate.
  - destruct (SFopp b); discriminate.
Qed.

(** ** Truncation, floor and clamping *)

Lemma restrict_to_range_clamp (v lo hi : Z) :
  lo <= hi -> detail.restrict_to_range v lo hi = clamp v lo hi.
Proof.
  intros H. unfold detail.restrict_to_range, clamp.
  destruct (v <? lo) eqn:E1; [apply Z.ltb_lt in E1; lia |].
  apply Z.ltb_ge in E1. rewrite Z.gtb_ltb.
  destruct (hi <? v) eqn:E2; [apply Z.ltb_lt in E2 | apply Z.ltb_ge in E2]; lia.
Qed.

Lemma restrict_to_range_mono (v w lo hi : Z) :
  lo <= hi -> v <= w ->
  detail.restrict_to_range v lo hi <= detail.restrict_to_range w lo hi.
Proof. intros H Hvw. rewrite !restrict_to_range_clamp by assumption. unfold clamp. lia. Qed.

Lemma double_floor_spec (d : double) :
  finite_double d ->
  (IZR (double_floor d) <= SF2R d < IZR (double_floor d) + 1)%R.
Proof.
  destruct d as [s | s | | s m e]; cbn [finite_double double_floor SF2R]; try contradiction.
  - intros _. lra.
  - intros _. apply shiftl_floor.
Qed.

(** [int32_t(d)] truncates and [floor] rounds down, but after clamping
    at zero the two agree. *)
Lemma restrict_trunc_floor (d : double) (i hi : Z) :
  0 <= hi -> int32_of_double d = Ok i ->
  detail.restrict_to_range i 0 hi = detail.restrict_to_range (double_floor d) 0 hi.
Proof.
  intros Hhi. destruct d as [s | s | | s m e]; cbn [int32_of_double double_floor];
    try discriminate.
  - intros H. now injection H as <-.
  - destruct (is_int32 (cond_Zopp s (Z.shiftl (Zpos m) e))); [| discriminate].
    intros H. injection H as <-.
    destruct s; cbn [cond_Zopp]; [| reflexivity].
    assert (H1 : 0 <= Z.shiftl (Zpos m) e) by (apply Z.shiftl_nonneg; lia).
    assert (H2 : Z.shiftl (Z.opp (Zpos m)) e < 0) by (apply Z.shiftl_neg; lia).
    rewrite !restrict_to_range_clamp by assumption. unfold clamp.
    change (Z.opp (Z.shiftl (Zpos m) e)) with (- Z.shiftl (Zpos m) e). lia.
Qed.

(** ** Further properties of the integer part *)

(** X1. [restrict_to_range] returns its value, or one of the two bounds.
    When [min <= max] the result lies in [[min, max]], it is the value
    itself exactly when the value is in range, and restricting twice is
    restricting once. *)
Theorem restrict_to_range_fixpoint (value min max : Z) :
  (detail.restrict_to_range value min max = min
   \/ detail.restrict_to_range value min max = max
   \/ detail.restrict_to_range value min max = value)
  /\ (min <= max ->
      min <= detail.restrict_to_range value min max <= max
      /\ (detail.restrict_to_range value min max = value <-> min <= value <= max)
      /\ detail.restrict_to_range (detail.restrict_to_range value min max) min max
         = detail.restrict_to_range value min max).
Proof.
  split.
  - unfold detail.restrict_to_range.
    destruct (value <? min); [auto |]. destruct (value >? max); auto.
  - intros Hle. rewrite !restrict_to_range_clamp by assumption. unfold clamp. lia.
Qed.

(** X2. With asserts enabled the constructor from coordinates checks
    exactly what [valid()] checks: for [uint32_t] arguments it returns the
    tile when the tile is valid and stops on an assert when it is not; the
    shifts in its asserts are never reached with [zoom >= 32]. Without
    asserts it returns the tile in both cases. *)
Theorem Tile_xyz_checks_valid (zoom tx ty : Z) :
  uint32 zoom -> uint32 tx -> uint32 ty ->
  let t := {| x := tx; y := ty; z := zoom |} in
  (valid t = Ok true /\ Tile_xyz Checked zoom tx ty = Ok t
   \/ valid t = Ok false /\ Tile_xyz Checked zoom tx ty = AssertFail)
  /\ Tile_xyz NDEBUG zoom tx ty = Ok t.
Proof.
  intros Hz Hx Hy t. split; [| reflexivity].
  assert (Hwf : wf_tile t) by (unfold wf_tile; auto).
  rewrite (valid_eq t Hwf). subst t. cbn [x y z]. unfold uint32 in *.
  unfold Tile_xyz, assert. cbn [bind x y z].
  destruct (zoom <=? 30) eqn:E30; cbn [bind andb]; [| right; auto].
  apply Z.leb_le in E30. rewrite uint_shl_1 by lia. cbn [bind].
  destruct (tx <? 2 ^ zoom); cbn [bind andb]; [| right; auto].
  destruct (ty <? 2 ^ zoom); cbn [bind]; [left | right]; auto.
Qed.

Lemma Tile_xyz_checks_valid_witness :
  Tile_xyz Checked 3 8 0 = AssertFail
  /\ Tile_xyz NDEBUG 3 8 0 = Ok {| x := 8; y := 0; z := 3 |}.
Proof.
  destruct (Tile_xyz_checks_valid 3 8 0) as [[[Hv _] | [_ Hc]] Hn];
    try (unfold uint32; lia).
  - discriminate Hv.
  - split; [exact Hc | exact Hn].
Defined.

(** * The constructor from a location *)

(** ** The scale and the two quotients *)

Lemma dmul_comm (a b : double) : dmul a b = dmul b a.
Proof.
  unfold dmul.
  destruct a as [sa | sa | | sa ma ea], b as [sb | sb | | sb mb eb]; cbn [SFmul];
    try reflexivity; try (now rewrite xorb_comm).
  now rewrite xorb_comm, Pos.mul_comm, Z.add_comm.
Qed.

Lemma F2R_double (m e : Z) : F2R m (e + 1) = (2 * F2R m e)%R.
Proof. unfold F2R. rewrite bpow_succ. ring. Qed.

Lemma F2R_div_pow2 (m e k : Z) :
  0 <= k -> F2R m (e - k) = (F2R m e / IZR (2 ^ k))%R.
Proof.
  intros Hk. unfold F2R. rewrite <- bpow_IZR by assumption.
  pose proof (bpow_gt_0 k) as Hp. pose proof (bpow_opp k) as Hinv.
  unfold Z.sub. rewrite bpow_add.
  replace (bpow (- k)) with (/ bpow k)%R; [field; lra |].
  apply Rmult_eq_reg_l with (bpow k); [| lra]. rewrite Hinv. field. lra.
Qed.

Lemma pow2_lt_53 (k : Z) : 0 <= k <= 30 -> 0 < 2 ^ k < 2 ^ 53.
Proof.
  intros Hk. split; [apply Z.pow_pos_nonneg; lia | apply Z.pow_lt_mono_r; lia].
Qed.

Section TileAt.

Variable Location : Type.
Variable location_valid : Location -> bool.
Variable lonlat_to_mercator : Location -> Coordinates.
Variable M : double.

Hypothesis HM : extent_ok M = true.

Lemma extent_ok_spec :
  exists (m : positive) (e : Z),
    M = S754_finite false m e /\ bounded prec emax m e = true /\ - 1045 <= e <= 970.
Proof.
  unfold extent_ok in HM. destruct M as [s | s | | s m e]; try discriminate.
  destruct s; [discriminate |].
  apply andb_prop in HM as [H1 H3]. apply andb_prop in H1 as [H1 H2].
  apply Z.leb_le in H2, H3. exists m, e. auto.
Qed.

Lemma extent_nonneg : nonneg_double M /\ (0 < SF2R M)%R.
Proof.
  destruct extent_ok_spec as (m & e & -> & Hb & He).
  cbn [nonneg_double SF2R cond_Zopp]. split; [auto | apply F2R_pos].
Qed.

Lemma extent_finite : finite_double M.
Proof. destruct extent_ok_spec as (m & e & -> & Hb & He). exact Hb. Qed.

Lemma extent_double_representable : representable (2 * SF2R M).
Proof.
  destruct extent_ok_spec as (m & e & -> & Hb & He).
  cbn [SF2R cond_Zopp]. rewrite <- F2R_double.
  apply bounded_spec in Hb as (Hm & _ & _).
  exists (Zpos m), (e + 1). repeat split; lia.
Qed.

Lemma tile_scale_value (zoom : Z) :
  0 <= zoom <= 30 ->
  nonneg_double (tile_scale M (2 ^ zoom))
  /\ SF2R (tile_scale M (2 ^ zoom)) = (2 * SF2R M / IZR (2 ^ zoom))%R.
Proof.
  intros Hz. unfold tile_scale.
  destruct extent_nonneg as [HMn HMpos].
  pose proof extent_double_representable as Hrep2.
  destruct (double_of_int_value 2 ltac:(lia)) as [H2n H2v].
  destruct (dmul_between M (double_of_int 2) _ _ HMn H2n Hrep2 Hrep2) as (Hmn & Hmv & _);
    [rewrite H2v; lra |].
  destruct (double_of_int_value (2 ^ zoom) ltac:(pose proof (pow2_lt_53 zoom Hz); lia))
    as [Hnn Hnv].
  assert (Hnpos : (0 < IZR (2 ^ zoom))%R).
  { apply IZR_lt. apply Z.pow_pos_nonneg; lia. }
  destruct (nonneg_double_pos _ Hnn ltac:(rewrite Hnv; exact Hnpos)) as (mn & en & En & _).
  assert (Hrep : representable (2 * SF2R M / IZR (2 ^ zoom))).
  { destruct extent_ok_spec as (m & e & -> & Hb & He).
    cbn [SF2R cond_Zopp]. rewrite <- F2R_double, <- F2R_div_pow2 by lia.
    apply bounded_spec in Hb as (Hm & _ & _).
    exists (Zpos m), (e + 1 - zoom). repeat split; lia. }
  destruct (ddiv_between _ _ mn en _ _ Hmn En Hrep Hrep) as (Hsn & Hsv & _).
  { rewrite Hnv. replace (SF2R (dmul M (double_of_int 2))) with (2 * SF2R M)%R by lra. lra. }
  split; [exact Hsn | lra].
Qed.

Lemma spec_scale_eq (zoom : Z) : spec_scale M zoom = tile_scale M (2 ^ zoom).
Proof. unfold spec_scale, tile_scale. now rewrite dmul_comm. Qed.

Lemma tile_scale_pos (zoom : Z) :
  0 <= zoom <= 30 ->
  (0 < SF2R (tile_scale M (2 ^ zoom)))%R
  /\ exists m e, tile_scale M (2 ^ zoom) = S754_finite false m e.
Proof.
  intros Hz. destruct (tile_scale_value zoom Hz) as [Hn Hv].
  destruct extent_nonneg as [_ HMpos].
  assert (Hnpos : (0 < IZR (2 ^ zoom))%R).
  { apply IZR_lt. apply Z.pow_pos_nonneg; lia. }
  assert (Hpos : (0 < SF2R (tile_scale M (2 ^ zoom)))%R).
  { rewrite Hv. apply Rdiv_lt_0_compat; lra. }
  split; [exact Hpos |].
  destruct (nonneg_double_pos _ Hn Hpos) as (m & e & E & _). eauto.
Qed.

(** The quotient handed to [int32_t(...)], for a numerator between 0 and
    [2 * M]: a double between 0 and [n]. *)
Lemma quotient_between (a : double) (zoom : Z) :
  0 <= zoom <= 30 -> nonneg_double a -> (SF2R a <= 2 * SF2R M)%R ->
  let q := ddiv a (tile_scale M (2 ^ zoom)) in
  nonneg_double q /\ (0 <= SF2R q <= IZR (2 ^ zoom))%R
  /\ rounded_value (SF2R a / SF2R (tile_scale M (2 ^ zoom))) (SF2R q).
Proof.
  intros Hz Ha Hle.
  destruct (tile_scale_pos zoom Hz) as (Hspos & ms & es & Es).
  destruct (tile_scale_value zoom Hz) as [_ Hsv].
  destruct extent_nonneg as [_ HMpos].
  pose proof (nonneg_double_ge_0 a Ha) as Ha0.
  assert (Hnpos : (0 < IZR (2 ^ zoom))%R).
  { apply IZR_lt. apply Z.pow_pos_nonneg; lia. }
  assert (Hrepn : representable (IZR (2 ^ zoom))).
  { exists (2 ^ zoom), 0. unfold F2R. rewrite bpow_0.
    pose proof (pow2_lt_53 zoom Hz). repeat split; try lia. ring. }
  apply (ddiv_between a _ ms es 0 (IZR (2 ^ zoom))); auto using representable_0.
  set (s := SF2R (tile_scale M (2 ^ zoom))) in *.
  split.
  - apply Rmult_le_pos; [lra |]. apply Rlt_le. now apply Rinv_0_lt_compat.
  - apply Rmult_le_reg_r with s; [exact Hspos |].
    unfold Rdiv. rewrite Rmult_assoc, Rinv_l, Rmult_1_r by lra.
    replace (IZR (2 ^ zoom) * s)%R with (2 * SF2R M)%R; [exact Hle |].
    rewrite Hsv. field. lra.
Qed.

Lemma within_extent_spec (c : Coordinates) :
  within_extent M c = true ->
  finite_double (Coordinates.x c) /\ finite_double (Coordinates.y c)
  /\ (- SF2R M <= SF2R (Coordinates.x c) <= SF2R M)%R
  /\ (- SF2R M <= SF2R (Coordinates.y c) <= SF2R M)%R.
Proof.
  unfold within_extent, dle. intros H.
  repeat (apply andb_prop in H as [H ?]).
  pose proof extent_finite as HMf.
  assert (Hx : finite_double (Coordinates.x c)) by (apply (SFleb_finite_l _ M); auto).
  assert (Hy : finite_double (Coordinates.y c)) by (apply (SFleb_finite_l _ M); auto).
  pose proof (finite_double_opp M HMf) as HMo.
  repeat split; auto.
  - rewrite <- SFopp_value. now apply SFleb_le.
  - now apply SFleb_le.
  - rewrite <- SFopp_value. now apply SFleb_le.
  - now apply SFleb_le.
Qed.

Lemma numerator_x (px : double) :
  finite_double px -> (- SF2R M <= SF2R px <= SF2R M)%R ->
  nonneg_double (dadd px M) /\ (0 <= SF2R (dadd px M) <= 2 * SF2R M)%R
  /\ rounded_value (SF2R px + SF2R M) (SF2R (dadd px M)).
Proof.
  intros Hf Hv.
  apply dadd_between; auto using representable_0, extent_finite, extent_double_representable.
  lra.
Qed.

Lemma numerator_y (py : double) :
  finite_double py -> (- SF2R M <= SF2R py <= SF2R M)%R ->
  nonneg_double (dsub M py) /\ (0 <= SF2R (dsub M py) <= 2 * SF2R M)%R
  /\ rounded_value (SF2R M - SF2R py) (SF2R (dsub M py)).
Proof.
  intros Hf Hv.
  apply dsub_between; auto using representable_0, extent_finite, extent_double_representable.
  lra.
Qed.

(** The conversion to [int32_t] is defined on such a quotient. *)
Lemma index_defined (a : double) (zoom : Z) :
  0 <= zoom <= 30 -> nonneg_double a -> (SF2R a <= 2 * SF2R M)%R ->
  exists i, int32_of_double (ddiv a (tile_scale M (2 ^ zoom))) = Ok i
            /\ 0 <= i <= 2 ^ zoom
            /\ (IZR i <= SF2R (ddiv a (tile_scale M (2 ^ zoom))) < IZR i + 1)%R.
Proof.
  intros Hz Ha Hle.
  destruct (quotient_between a zoom Hz Ha Hle) as (Hq & [_ Hqn] & _).
  apply int32_of_double_nonneg; auto.
  apply Z.pow_lt_mono_r; lia.
Qed.

Lemma index_monotone (a1 a2 : double) (zoom i1 i2 : Z) :
  0 <= zoom <= 30 ->
  nonneg_double a1 -> nonneg_double a2 ->
  (SF2R a1 <= SF2R a2)%R -> (SF2R a2 <= 2 * SF2R M)%R ->
  int32_of_double (ddiv a1 (tile_scale M (2 ^ zoom))) = Ok i1 ->
  int32_of_double (ddiv a2 (tile_scale M (2 ^ zoom))) = Ok i2 ->
  i1 <= i2.
Proof.
  intros Hz Ha1 Ha2 Hle Hub E1 E2.
  destruct (tile_scale_pos zoom Hz) as (Hspos & _).
  destruct (quotient_between a1 zoom Hz Ha1 ltac:(lra)) as (_ & _ & R1).
  destruct (quotient_between a2 zoom Hz Ha2 Hub) as (_ & _ & R2).
  destruct (index_defined a1 zoom Hz Ha1 ltac:(lra)) as (j1 & F1 & _ & Hf1).
  destruct (index_defined a2 zoom Hz Ha2 Hub) as (j2 & F2 & _ & Hf2).
  rewrite E1 in F1. injection F1 as <-. rewrite E2 in F2. injection F2 as <-.
  assert (Hq : (SF2R (ddiv a1 (tile_scale M (2 ^ zoom)))
                <= SF2R (ddiv a2 (tile_scale M (2 ^ zoom))))%R).
  { apply (rounded_value_monotone _ _ _ _ R1 R2).
    apply Rmult_le_compat_r; [| exact Hle].
    apply Rlt_le. now apply Rinv_0_lt_compat. }
  assert (Hlt : (IZR i1 < IZR (i2 + 1))%R) by (rewrite plus_IZR; lra).
  apply lt_IZR in Hlt. lia.
Qed.

Lemma stored_index (i zoom : Z) :
  0 <= zoom <= 30 ->
  0 <= to_uint32 (detail.restrict_to_range i 0 (2 ^ zoom - 1)) <= 2 ^ zoom - 1
  /\ to_uint32 (detail.restrict_to_range i 0 (2 ^ zoom - 1))
     = detail.restrict_to_range i 0 (2 ^ zoom - 1).
Proof.
  intros Hz. pose proof (pow2_le_30 zoom Hz) as Hp. change (2 ^ 30) with 1073741824 in Hp.
  pose proof (restrict_to_range_bounds i 0 (2 ^ zoom - 1) ltac:(lia)) as Hr.
  rewrite to_uint32_small by (change (2 ^ 32) with 4294967296; lia).
  split; [exact Hr | reflexivity].
Qed.

(** [Tile_at] once the asserts and the integer operations are evaluated. *)
Lemma Tile_at_eq (b : build) (zoom : Z) (location : Location) :
  0 <= zoom <= 30 -> assert b (Ok (location_valid location)) = Ok tt ->
  Tile_at Location location_valid lonlat_to_mercator M b zoom location =
  (ix <- int32_of_double (raw_x M (lonlat_to_mercator location) (tile_scale M (2 ^ zoom))) ;;
   iy <- int32_of_double (raw_y M (lonlat_to_mercator location) (tile_scale M (2 ^ zoom))) ;;
   Ok {| x := to_uint32 (detail.restrict_to_range ix 0 (2 ^ zoom - 1));
         y := to_uint32 (detail.restrict_to_range iy 0 (2 ^ zoom - 1));
         z := zoom |}).
Proof.
  intros Hz Hv. unfold Tile_at.
  assert (Ha : assert b (Ok (zoom <=? 30)) = Ok tt).
  { replace (zoom <=? 30) with true by (symmetry; apply Z.leb_le; lia).
    destruct b; reflexivity. }
  rewrite Ha, Hv. cbn [bind].
  rewrite int_shl_1 by assumption. cbn [bind].
  assert (Hs : int_sub (2 ^ zoom) 1 = Ok (2 ^ zoom - 1)).
  { unfold int_sub. rewrite is_int32_true; [reflexivity |].
    pose proof (pow2_le_30 zoom Hz) as Hp. change (2 ^ 30) with 1073741824 in Hp.
    change (2 ^ 31) with 2147483648. lia. }
  rewrite Hs. reflexivity.
Qed.

Lemma assert_true (b : build) (c : bool) : c = true -> assert b (Ok c) = Ok tt.
Proof. intros ->. destruct b; reflexivity. Qed.

(** Whenever the constructor completes, the members are the truncated
    quotients, clamped. *)
Lemma Tile_at_Ok_inv (b : build) (zoom : Z) (location : Location) (t : Tile) :
  0 <= zoom <= 30 ->
  Tile_at Location location_valid lonlat_to_mercator M b zoom location = Ok t ->
  exists ix iy,
    int32_of_double (raw_x M (lonlat_to_mercator location) (tile_scale M (2 ^ zoom))) = Ok ix
    /\ int32_of_double (raw_y M (lonlat_to_mercator location) (tile_scale M (2 ^ zoom))) = Ok iy
    /\ t = {| x := detail.restrict_to_range ix 0 (2 ^ zoom - 1);
              y := detail.restrict_to_range iy 0 (2 ^ zoom - 1);
              z := zoom |}.
Proof.
  intros Hz Ht.
  assert (Hv : assert b (Ok (location_valid location)) = Ok tt).
  { destruct (assert b (Ok (location_valid location))) as [[] | |] eqn:E; [reflexivity | |];
      exfalso; unfold Tile_at in Ht; rewrite E in Ht;
      destruct (assert b (Ok (zoom <=? 30))); discriminate. }
  rewrite (Tile_at_eq b zoom location Hz Hv) in Ht.
  destruct (int32_of_double (raw_x M _ _)) as [ix | |]; try discriminate.
  destruct (int32_of_double (raw_y M _ _)) as [iy | |]; try discriminate.
  cbn [bind] in Ht. injection Ht as <-.
  exists ix, iy. split; [reflexivity |]. split; [reflexivity |].
  destruct (stored_index ix zoom Hz) as [_ ->].
  destruct (stored_index iy zoom Hz) as [_ ->]. reflexivity.
Qed.


(** ** Completion and the members of the tile *)

Lemma Tile_at_completes (b : build) (zoom : Z) (location : Location) :
  0 <= zoom <= 30 ->
  location_valid location = true ->
  within_extent M (lonlat_to_mercator location) = true ->
  exists ix iy,
    int32_of_double (raw_x M (lonlat_to_mercator location) (tile_scale M (2 ^ zoom))) = Ok ix
    /\ int32_of_double (raw_y M (lonlat_to_mercator location) (tile_scale M (2 ^ zoom))) = Ok iy
    /\ Tile_at Location location_valid lonlat_to_mercator M b zoom location
       = Ok {| x := detail.restrict_to_range ix 0 (2 ^ zoom - 1);
               y := detail.restrict_to_range iy 0 (2 ^ zoom - 1);
               z := zoom |}.
Proof.
  intros Hz Hv Hext.
  destruct (within_extent_spec _ Hext) as (Hfx & Hfy & Hvx & Hvy).
  destruct (numerator_x _ Hfx Hvx) as (Hax & [_ Hbx] & _).
  destruct (numerator_y _ Hfy Hvy) as (Hay & [_ Hby] & _).
  destruct (index_defined _ zoom Hz Hax Hbx) as (ix & Ex & _).
  destruct (index_defined _ zoom Hz Hay Hby) as (iy & Ey & _).
  exists ix, iy. split; [exact Ex |]. split; [exact Ey |].
  rewrite (Tile_at_eq b zoom location Hz (assert_true b _ Hv)).
  unfold raw_x, raw_y in *. rewrite Ex, Ey. cbn [bind].
  destruct (stored_index ix zoom Hz) as [_ ->].
  destruct (stored_index iy zoom Hz) as [_ ->]. reflexivity.
Qed.

(** The constructor completes for no zoom level above 30: a checked build
    stops at the assert, and without asserts [1 << zoom] is undefined. *)
Lemma Tile_at_Ok_zoom (b : build) (zoom : Z) (location : Location) (t : Tile) :
  0 <= zoom ->
  Tile_at Location location_valid lonlat_to_mercator M b zoom location = Ok t ->
  zoom <= 30.
Proof.
  intros H0 Ht. destruct (Z_le_dec zoom 30) as [Hle | Hgt]; [assumption |]. exfalso.
  unfold Tile_at in Ht. destruct b.
  - unfold assert at 1 in Ht. cbn [bind] in Ht.
    replace (zoom <=? 30) with false in Ht by (symmetry; apply Z.leb_gt; lia).
    discriminate.
  - cbn [assert bind] in Ht. rewrite int_shl_1_undefined in Ht by lia. discriminate.
Qed.

(** The row of a point on the northern edge. *)
Lemma top_row_index (zoom iy : Z) :
  0 <= zoom <= 30 ->
  int32_of_double (ddiv (dsub M M) (tile_scale M (2 ^ zoom))) = Ok iy ->
  detail.restrict_to_range iy 0 (2 ^ zoom - 1) = 0.
Proof.
  intros Hz Ey.
  pose proof (pow2_le_30 zoom Hz) as Hp. change (2 ^ 30) with 1073741824 in Hp.
  destruct (dsub_between M M 0 0) as (Ha & Hav & _);
    auto using representable_0, extent_finite; [lra |].
  destruct (tile_scale_pos zoom Hz) as (Hspos & ms & es & Es).
  destruct (ddiv_between (dsub M M) _ ms es 0 0 Ha Es representable_0 representable_0)
    as (Hq & Hqv & _).
  { replace (SF2R (dsub M M)) with 0%R by lra. unfold Rdiv. rewrite Rmult_0_l. lra. }
  destruct (int32_of_double_nonneg _ 0 Hq ltac:(lra) ltac:(lia)) as (i & Ei & Hi & _).
  rewrite Ey in Ei. injection Ei as ->.
  assert (i = 0) by lia. subst i.
  unfold detail.restrict_to_range.
  replace (0 >? 2 ^ zoom - 1) with false; [reflexivity |].
  symmetry. rewrite Z.gtb_ltb. apply Z.ltb_ge. lia.
Qed.

(** Whenever the constructor completes, in either build and for any
    location at all, the zoom is at most 30 and the tile satisfies
    [valid()]. *)
Lemma Tile_at_Ok_valid (b : build) (zoom : Z) (location : Location) (t : Tile) :
  0 <= zoom ->
  Tile_at Location location_valid lonlat_to_mercator M b zoom location = Ok t ->
  valid t = Ok true
  /\ z t = zoom /\ z t <= 30
  /\ 0 <= x t <= 2 ^ zoom - 1
  /\ 0 <= y t <= 2 ^ zoom - 1.
Proof.
  intros H0 Ht.
  pose proof (Tile_at_Ok_zoom b zoom location t H0 Ht) as H30.
  assert (Hz : 0 <= zoom <= 30) by lia.
  destruct (Tile_at_Ok_inv b zoom location t Hz Ht) as (ix & iy & _ & _ & ->).
  pose proof (pow2_le_30 zoom Hz) as Hp. change (2 ^ 30) with 1073741824 in Hp.
  pose proof (restrict_to_range_bounds ix 0 (2 ^ zoom - 1) ltac:(lia)) as Hx.
  pose proof (restrict_to_range_bounds iy 0 (2 ^ zoom - 1) ltac:(lia)) as Hy.
  cbn [x y z]. split; [| repeat split; lia].
  rewrite valid_eq.
  - cbn [x y z]. f_equal.
    apply andb_true_intro; split; [apply andb_true_intro; split |].
    + apply Z.leb_le. lia.
    + apply Z.ltb_lt. lia.
    + apply Z.ltb_lt. lia.
  - unfold wf_tile, uint32. cbn [x y z]. change (2 ^ 32) with 4294967296. lia.
Qed.

(** C1. For every zoom level [zoom <= 30] and every valid location, the
    projected coordinates of a valid location lying in the square
    [[-M, M] x [-M, M]] as the projection promises, the constructor
    completes and the tile satisfies [valid()]: its [z] is the zoom, at
    most 30, and its [x] and [y] lie in [[0, 2^zoom - 1]]. *)
Theorem Tile_at_valid (b : build) (zoom : Z) (location : Location) :
  0 <= zoom <= 30 ->
  location_valid location = true ->
  within_extent M (lonlat_to_mercator location) = true ->
  exists t,
    Tile_at Location location_valid lonlat_to_mercator M b zoom location = Ok t
    /\ valid t = Ok true
    /\ z t = zoom /\ z t <= 30
    /\ 0 <= x t <= 2 ^ zoom - 1
    /\ 0 <= y t <= 2 ^ zoom - 1.
Proof.
  intros Hz Hv Hext.
  destruct (Tile_at_completes b zoom location Hz Hv Hext) as (ix & iy & _ & _ & Ht).
  eexists. split; [exact Ht |].
  apply (Tile_at_Ok_valid b zoom location); [lia | exact Ht].
Qed.

(** C8. At zoom level 0 the constructor returns, for every valid location,
    the tile (column 0, row 0, zoom 0). *)
Theorem Tile_at_zoom_0 (b : build) (location : Location) :
  location_valid location = true ->
  within_extent M (lonlat_to_mercator location) = true ->
  Tile_at Location location_valid lonlat_to_mercator M b 0 location
  = Ok {| x := 0; y := 0; z := 0 |}.
Proof.
  intros Hv Hext.
  destruct (Tile_at_completes b 0 location ltac:(lia) Hv Hext) as (ix & iy & _ & _ & Ht).
  rewrite Ht. change (2 ^ 0 - 1) with 0.
  pose proof (restrict_to_range_bounds ix 0 0 ltac:(lia)) as Hx.
  pose proof (restrict_to_range_bounds iy 0 0 ltac:(lia)) as Hy.
  do 2 f_equal; lia.
Qed.

(** C9. For every [zoom <= 30] and every valid location the constructor
    completes with a row in [[0, 2^zoom - 1]], and the row is 0 when the
    projected [y] coordinate is exactly the maximum [M]. *)
Theorem Tile_at_top_row (b : build) (zoom : Z) (location : Location) :
  0 <= zoom <= 30 ->
  location_valid location = true ->
  within_extent M (lonlat_to_mercator location) = true ->
  exists t,
    Tile_at Location location_valid lonlat_to_mercator M b zoom location = Ok t
    /\ 0 <= y t <= 2 ^ zoom - 1
    /\ (Coordinates.y (lonlat_to_mercator location) = M -> y t = 0).
Proof.
  intros Hz Hv Hext.
  pose proof (pow2_le_30 zoom Hz) as Hp. change (2 ^ 30) with 1073741824 in Hp.
  destruct (Tile_at_completes b zoom location Hz Hv Hext) as (ix & iy & _ & Ey & Ht).
  eexists. split; [exact Ht |]. cbn [y].
  split; [apply restrict_to_range_bounds; lia |].
  intros Etop. unfold raw_y in Ey. rewrite Etop in Ey. now apply top_row_index.
Qed.

(** C3. For [zoom <= 30] and a valid location the constructor completes,
    and the stored column is [floor((px + M) / scale)] clamped into
    [[0, n - 1]] and the stored row [floor((M - py) / scale)] clamped into
    [[0, n - 1]], the arithmetic being that of binary64, with [n = 2^zoom]
    and [scale] exactly [2 * M / n]. The same formulas give the members
    whenever the constructor completes at all. The row does not decrease
    when [py] decreases, and it is 0 at [py = M]: row 0 is the
    northernmost. *)
Theorem Tile_at_formula (b : build) (zoom : Z) (location : Location) :
  0 <= zoom <= 30 ->
  location_valid location = true ->
  within_extent M (lonlat_to_mercator location) = true ->
  let c := lonlat_to_mercator location in
  exists t,
    Tile_at Location location_valid lonlat_to_mercator M b zoom location = Ok t
    /\ x t = spec_column M zoom (Coordinates.x c)
    /\ y t = spec_row M zoom (Coordinates.y c)
    /\ SF2R (spec_scale M zoom) = (2 * SF2R M / IZR (2 ^ zoom))%R
    /\ (forall b' location' t',
          Tile_at Location location_valid lonlat_to_mercator M b' zoom location' = Ok t' ->
          x t' = spec_column M zoom (Coordinates.x (lonlat_to_mercator location'))
          /\ y t' = spec_row M zoom (Coordinates.y (lonlat_to_mercator location')))
    /\ (forall b' location' t',
          within_extent M (lonlat_to_mercator location') = true ->
          Tile_at Location location_valid lonlat_to_mercator M b' zoom location' = Ok t' ->
          dle (Coordinates.y (lonlat_to_mercator location')) (Coordinates.y c) = true ->
          y t <= y t')
    /\ (Coordinates.y c = M -> y t = 0).
Proof.
  intros Hz Hv Hext c.
  pose proof (pow2_le_30 zoom Hz) as Hp. change (2 ^ 30) with 1073741824 in Hp.
  assert (Hgen : forall b' location' t',
          Tile_at Location location_valid lonlat_to_mercator M b' zoom location' = Ok t' ->
          x t' = spec_column M zoom (Coordinates.x (lonlat_to_mercator location'))
          /\ y t' = spec_row M zoom (Coordinates.y (lonlat_to_mercator location'))).
  { intros b' l' t' Ht'.
    destruct (Tile_at_Ok_inv b' zoom l' t' Hz Ht') as (ix & iy & Ex & Ey & ->).
    cbn [x y]. unfold spec_column, spec_row. rewrite spec_scale_eq.
    rewrite (restrict_trunc_floor _ ix (2 ^ zoom - 1) ltac:(lia) Ex).
    rewrite (restrict_trunc_floor _ iy (2 ^ zoom - 1) ltac:(lia) Ey).
    rewrite !restrict_to_range_clamp by lia. split; reflexivity. }
  destruct (Tile_at_completes b zoom location Hz Hv Hext) as (ix & iy & _ & Ey & Ht).
  eexists. split; [exact Ht |].
  destruct (Hgen b location _ Ht) as [Hx Hy].
  split; [exact Hx |]. split; [exact Hy |].
  split; [rewrite spec_scale_eq; now apply tile_scale_value |].
  split; [exact Hgen |].
  cbn [y]. split.
  - intros b' l' t' Hext' Ht' Hle.
    destruct (Tile_at_Ok_inv b' zoom l' t' Hz Ht') as (ix' & iy' & _ & Ey' & ->).
    cbn [y]. apply restrict_to_range_mono; [lia |].
    destruct (within_extent_spec _ Hext) as (_ & Hfy & _ & Hvy).
    destruct (within_extent_spec _ Hext') as (_ & Hfy' & _ & Hvy').
    fold c in Hfy, Hvy, Ey.
    destruct (numerator_y _ Hfy Hvy) as (Ha & [_ Hb] & Hr).
    destruct (numerator_y _ Hfy' Hvy') as (Ha' & [_ Hb'] & Hr').
    apply (index_monotone (dsub M (Coordinates.y c))
             (dsub M (Coordinates.y (lonlat_to_mercator l'))) zoom); auto.
    apply (rounded_value_monotone _ _ _ _ Hr Hr').
    pose proof (SFleb_le _ _ Hfy' Hfy Hle). lra.
  - intros Etop. unfold raw_y in Ey. fold c in Ey. rewrite Etop in Ey.
    now apply top_row_index.
Qed.

(** ** Preconditions that fail *)

(** X3. A zoom level above 30 stops a checked build at the first assert,
    and has undefined behaviour ([1 << zoom] on an [int]) without asserts;
    an invalid location stops a checked build at the second assert. The
    asserts do nothing else: a tile returned with asserts enabled is
    returned without them as well. *)
Theorem Tile_at_rejects (zoom : Z) (location : Location) :
  (30 < zoom ->
   Tile_at Location location_valid lonlat_to_mercator M Checked zoom location = AssertFail
   /\ Tile_at Location location_valid lonlat_to_mercator M NDEBUG zoom location = Undefined)
  /\ (zoom <= 30 -> location_valid location = false ->
      Tile_at Location location_valid lonlat_to_mercator M Checked zoom location = AssertFail)
  /\ (forall t,
        Tile_at Location location_valid lonlat_to_mercator M Checked zoom location = Ok t ->
        Tile_at Location location_valid lonlat_to_mercator M NDEBUG zoom location = Ok t).
Proof.
  unfold Tile_at, assert. split; [| split].
  - intros Hz. fails (zoom <=? 30). cbn [bind]. split; [reflexivity |].
    now rewrite int_shl_1_undefined by lia.
  - intros Hz Hv. holds (zoom <=? 30). rewrite Hv. reflexivity.
  - intros t. cbn [bind].
    destruct (zoom <=? 30); [| discriminate].
    destruct (location_valid location); [| discriminate].
    trivial.
Qed.

(** X9. A tile returned by the constructor from a location can be rebuilt
    from its three members with the constructor from coordinates, whose
    asserts it passes. *)
Theorem Tile_at_rebuild (b b' : build) (zoom : Z) (location : Location) (t : Tile) :
  0 <= zoom ->
  Tile_at Location location_valid lonlat_to_mercator M b zoom location = Ok t ->
  Tile_xyz b' (z t) (x t) (y t) = Ok t.
Proof.
  intros H0 Ht.
  destruct (Tile_at_Ok_valid b zoom location t H0 Ht) as (_ & Ez & H30 & Hx & Hy).
  rewrite Ez in *. destruct t as [tx ty tz]. cbn [x y z] in *. subst tz.
  unfold Tile_xyz. destruct b'; [| reflexivity].
  unfold assert. rewrite uint_shl_1 by lia. cbn [bind x y].
  holds (zoom <=? 30). holds (tx <? 2 ^ zoom). holds (ty <? 2 ^ zoom).
  reflexivity.
Qed.

(** ** Columns from west to east *)

(** X4. The column does not decrease when [px] increases: of two points
    inside the square, the one further east is in the same column or in
    one further east. *)
Theorem Tile_at_column_monotone
    (b b' : build) (zoom : Z) (location location' : Location) (t t' : Tile) :
  0 <= zoom <= 30 ->
  within_extent M (lonlat_to_mercator location) = true ->
  within_extent M (lonlat_to_mercator location') = true ->
  Tile_at Location location_valid lonlat_to_mercator M b zoom location = Ok t ->
  Tile_at Location location_valid lonlat_to_mercator M b' zoom location' = Ok t' ->
  dle (Coordinates.x (lonlat_to_mercator location))
      (Coordinates.x (lonlat_to_mercator location')) = true ->
  x t <= x t'.
Proof.
  intros Hz Hext Hext' Ht Ht' Hle.
  pose proof (pow2_le_30 zoom Hz) as Hp. change (2 ^ 30) with 1073741824 in Hp.
  destruct (Tile_at_Ok_inv b zoom location t Hz Ht) as (ix & iy & Ex & _ & ->).
  destruct (Tile_at_Ok_inv b' zoom location' t' Hz Ht') as (ix' & iy' & Ex' & _ & ->).
  cbn [x]. apply restrict_to_range_mono; [lia |].
  destruct (within_extent_spec _ Hext) as (Hfx & _ & Hvx & _).
  destruct (within_extent_spec _ Hext') as (Hfx' & _ & Hvx' & _).
  destruct (numerator_x _ Hfx Hvx) as (Ha & [_ Hb] & Hr).
  destruct (numerator_x _ Hfx' Hvx') as (Ha' & [_ Hb'] & Hr').
  apply (index_monotone (dadd (Coordinates.x (lonlat_to_mercator location)) M)
           (dadd (Coordinates.x (lonlat_to_mercator location')) M) zoom); auto.
  apply (rounded_value_monotone _ _ _ _ Hr Hr').
  pose proof (SFleb_le _ _ Hfx Hfx' Hle). lra.
Qed.

(** ** The edges of the square *)

Lemma pow2_succ (k : Z) : 0 <= k -> 2 ^ (k + 1) = 2 * 2 ^ k.
Proof. intros Hk. rewrite Z.pow_add_r by lia. change (2 ^ 1) with 2. lia. Qed.

Lemma index_exact (a : double) (zoom k : Z) :
  0 <= zoom <= 30 -> nonneg_double a -> 0 <= k <= 2 ^ zoom ->
  (SF2R a = IZR k * SF2R (tile_scale M (2 ^ zoom)))%R ->
  int32_of_double (ddiv a (tile_scale M (2 ^ zoom))) = Ok k.
Proof.
  intros Hz Ha Hk Hv.
  destruct (tile_scale_pos zoom Hz) as (Hspos & ms & es & Es).
  pose proof (pow2_lt_53 zoom Hz) as H53.
  assert (Hrep : representable (IZR k)).
  { exists k, 0. unfold F2R. rewrite bpow_0. repeat split; try lia. ring. }
  destruct (ddiv_between a _ ms es (IZR k) (IZR k) Ha Es Hrep Hrep) as (Hq & Hqv & _).
  { rewrite Hv. unfold Rdiv. rewrite Rmult_assoc, Rinv_r by lra. lra. }
  destruct (int32_of_double_nonneg _ k Hq ltac:(lra))
    as (i & Ei & Hi & Hf).
  { pose proof (pow2_le_30 zoom Hz) as Hp. change (2 ^ 30) with 1073741824 in Hp.
    change (2 ^ 31) with 2147483648. lia. }
  rewrite Ei. f_equal.
  assert (Hlt : (IZR k < IZR (i + 1))%R) by (rewrite plus_IZR; lra).
  apply lt_IZR in Hlt. lia.
Qed.

(** X5. On the western edge ([px = -M]) the column is 0. On the eastern
    edge ([px = M]) the quotient converts to [n = 2^zoom] exactly, one
    past the last column, and the clamp stores column [n - 1]; likewise
    the southern edge ([py = -M]) gets row [n - 1]. From zoom 1 on, a
    point on the centre line [px = 0] is in column [n / 2], the first of
    the eastern half, and a point on [py = 0] in row [n / 2], the first of
    the southern half. *)
Theorem Tile_at_edges (b : build) (zoom : Z) (location : Location) :
  0 <= zoom <= 30 ->
  location_valid location = true ->
  within_extent M (lonlat_to_mercator location) = true ->
  let c := lonlat_to_mercator location in
  exists t,
    Tile_at Location location_valid lonlat_to_mercator M b zoom location = Ok t
    /\ (Coordinates.x c = SFopp M -> x t = 0)
    /\ (Coordinates.x c = M ->
        int32_of_double (raw_x M c (tile_scale M (2 ^ zoom))) = Ok (2 ^ zoom)
        /\ x t = 2 ^ zoom - 1)
    /\ (Coordinates.y c = SFopp M ->
        int32_of_double (raw_y M c (tile_scale M (2 ^ zoom))) = Ok (2 ^ zoom)
        /\ y t = 2 ^ zoom - 1)
    /\ (1 <= zoom -> SF2R (Coordinates.x c) = 0%R -> x t = 2 ^ (zoom - 1))
    /\ (1 <= zoom -> SF2R (Coordinates.y c) = 0%R -> y t = 2 ^ (zoom - 1)).
Proof.
  intros Hz Hv Hext c.
  pose proof (pow2_le_30 zoom Hz) as Hp. change (2 ^ 30) with 1073741824 in Hp.
  destruct (Tile_at_completes b zoom location Hz Hv Hext) as (ix & iy & Ex & Ey & Ht).
  fold c in Ex, Ey. unfold raw_x, raw_y in *.
  destruct (tile_scale_value zoom Hz) as [_ Hsv].
  destruct extent_nonneg as [_ HMpos].
  pose proof extent_finite as HMf.
  pose proof (finite_double_opp M HMf) as HMo.
  pose proof extent_double_representable as Hrep2.
  assert (Hnpos : (0 < IZR (2 ^ zoom))%R) by (apply IZR_lt; lia).
  assert (Hfull : (2 * SF2R M = IZR (2 ^ zoom) * SF2R (tile_scale M (2 ^ zoom)))%R).
  { rewrite Hsv. field. lra. }
  assert (Hlast : detail.restrict_to_range (2 ^ zoom) 0 (2 ^ zoom - 1) = 2 ^ zoom - 1).
  { rewrite restrict_to_range_clamp by lia. unfold clamp. lia. }
  assert (Hmid : 1 <= zoom ->
            0 <= 2 ^ (zoom - 1) <= 2 ^ zoom
            /\ (SF2R M = IZR (2 ^ (zoom - 1)) * SF2R (tile_scale M (2 ^ zoom)))%R
            /\ detail.restrict_to_range (2 ^ (zoom - 1)) 0 (2 ^ zoom - 1) = 2 ^ (zoom - 1)).
  { intros H1. pose proof (pow2_succ (zoom - 1) ltac:(lia)) as Hd.
    replace (zoom - 1 + 1) with zoom in Hd by lia.
    assert (0 < 2 ^ (zoom - 1)) by (apply Z.pow_pos_nonneg; lia).
    split; [lia |]. split.
    - assert (Hpos1 : (0 < IZR (2 ^ (zoom - 1)))%R) by (apply IZR_lt; lia).
      rewrite Hsv, Hd, mult_IZR. field. lra.
    - rewrite restrict_to_range_clamp by lia. unfold clamp. lia. }
  destruct (within_extent_spec _ Hext) as (Hfx & Hfy & Hvx & Hvy). fold c in Hfx, Hfy, Hvx, Hvy.
  eexists. split; [exact Ht |]. cbn [x y].
  split; [| split; [| split; [| split]]].
  - intros Ewest. rewrite Ewest in Ex.
    destruct (dadd_between (SFopp M) M 0 0) as (Ha & Hav & _);
      auto using representable_0; [rewrite SFopp_value; lra |].
    rewrite (index_exact _ zoom 0 Hz Ha ltac:(lia)) in Ex by (rewrite Rmult_0_l; lra).
    injection Ex as <-. rewrite restrict_to_range_clamp by lia. unfold clamp. lia.
  - intros Eeast. rewrite Eeast in Ex |- *.
    destruct (dadd_between M M _ _ HMf HMf Hrep2 Hrep2) as (Ha & Hav & _); [lra |].
    assert (Ek : int32_of_double (ddiv (dadd M M) (tile_scale M (2 ^ zoom))) = Ok (2 ^ zoom)).
    { apply index_exact; auto; [lia | lra]. }
    split; [exact Ek |]. rewrite Ek in Ex. injection Ex as <-. exact Hlast.
  - intros Esouth. rewrite Esouth in Ey |- *.
    destruct (dsub_between M (SFopp M) _ _ HMf HMo Hrep2 Hrep2) as (Ha & Hav & _);
      [rewrite SFopp_value; lra |].
    assert (Ek : int32_of_double (ddiv (dsub M (SFopp M)) (tile_scale M (2 ^ zoom)))
                 = Ok (2 ^ zoom)).
    { apply index_exact; auto; [lia | lra]. }
    split; [exact Ek |]. rewrite Ek in Ey. injection Ey as <-. exact Hlast.
  - intros H1 E0. destruct (Hmid H1) as (Hk & Hval & Hr).
    assert (Hrep : representable (SF2R M)) by (apply nonneg_double_representable, extent_nonneg).
    destruct (dadd_between (Coordinates.x c) M _ _ Hfx HMf Hrep Hrep) as (Ha & Hav & _);
      [rewrite E0; lra |].
    rewrite (index_exact _ zoom (2 ^ (zoom - 1)) Hz Ha Hk) in Ex by lra.
    injection Ex as <-. exact Hr.
  - intros H1 E0. destruct (Hmid H1) as (Hk & Hval & Hr).
    assert (Hrep : representable (SF2R M)) by (apply nonneg_double_representable, extent_nonneg).
    destruct (dsub_between M (Coordinates.y c) _ _ HMf Hfy Hrep Hrep) as (Ha & Hav & _);
      [rewrite E0; lra |].
    rewrite (index_exact _ zoom (2 ^ (zoom - 1)) Hz Ha Hk) in Ey by lra.
    injection Ey as <-. exact Hr.
Qed.

(** ** From one zoom level to the next *)

Lemma rounded_value_unique (v w1 w2 : R) :
  rounded_value v w1 -> rounded_value v w2 -> w1 = w2.
Proof.
  intros H1 H2. apply Rle_antisym.
  - apply (rounded_value_monotone v w1 v w2); auto. lra.
  - apply (rounded_value_monotone v w2 v w1); auto. lra.
Qed.

Lemma bpow_m2 : bpow (- 2) = (/ 4)%R.
Proof. unfold bpow, powerRZ. simpl. field. Qed.

(** Doubling commutes with rounding, away from the subnormal range. *)
Lemma rounded_value_double (v w : R) :
  rounded_value v w -> (/ 4 <= v)%R -> rounded_value (2 * v) (2 * w).
Proof.
  intros (m & e & -> & He & Hm & Hnear & Hev & Hnorm & Hmag) Hv.
  assert (Hlt : - 1074 < e).
  { destruct (Z_lt_dec (- 1074) e) as [H | H]; [assumption |]. exfalso.
    assert (bpow (e + 53) <= bpow (- 2))%R by (apply bpow_le; lia).
    rewrite bpow_m2 in *. lra. }
  destruct (Hnorm Hlt) as [H52 Hlo].
  exists m, (e + 1). split; [now rewrite F2R_double |].
  assert (Hs : (2 * v * bpow (- (e + 1)) = v * bpow (- e))%R).
  { replace (- e) with (- (e + 1) + 1) by lia. rewrite bpow_succ. ring. }
  unfold grid_nearest. rewrite Hs.
  split; [lia |]. split; [lia |]. split; [exact Hnear |]. split; [exact Hev |].
  split.
  - intros _. split; [exact H52 |].
    replace (e + 1 + 52) with (e + 52 + 1) by lia. rewrite bpow_succ. lra.
  - replace (e + 1 + 53) with (e + 53 + 1) by lia. rewrite bpow_succ. lra.
Qed.

Lemma nonneg_double_finite (d : double) : nonneg_double d -> finite_double d.
Proof. destruct d; cbn; tauto. Qed.

(** The integer part of the quotient at the next zoom level is twice the
    integer part at this one, or one more. *)
Lemma floor_child (a : double) (zoom : Z) :
  0 <= zoom -> zoom + 1 <= 30 ->
  nonneg_double a -> (SF2R a <= 2 * SF2R M)%R ->
  let f := double_floor (ddiv a (tile_scale M (2 ^ zoom))) in
  let f' := double_floor (ddiv a (tile_scale M (2 ^ (zoom + 1)))) in
  0 <= f <= 2 ^ zoom /\ 2 * f <= f' <= 2 * f + 1 /\ f' <= 2 ^ (zoom + 1).
Proof.
  intros Hz0 Hz1 Ha Hle f f'.
  assert (Hz : 0 <= zoom <= 30) by lia.
  assert (Hz' : 0 <= zoom + 1 <= 30) by lia.
  destruct (quotient_between a zoom Hz Ha Hle) as (Hq & [Hq0 Hqn] & Rq).
  destruct (quotient_between a (zoom + 1) Hz' Ha Hle) as (Hq' & [Hq0' Hqn'] & Rq').
  pose proof (double_floor_spec _ (nonneg_double_finite _ Hq)) as [Hf1 Hf2].
  pose proof (double_floor_spec _ (nonneg_double_finite _ Hq')) as [Hf1' Hf2'].
  fold f in Hf1, Hf2. fold f' in Hf1', Hf2'.
  destruct (tile_scale_value zoom Hz) as [_ Hsv].
  destruct (tile_scale_value (zoom + 1) Hz') as [_ Hsv'].
  destruct (tile_scale_pos zoom Hz) as [Hspos _].
  destruct extent_nonneg as [_ HMpos].
  pose proof (nonneg_double_ge_0 a Ha) as Ha0.
  set (s := SF2R (tile_scale M (2 ^ zoom))) in *.
  set (s' := SF2R (tile_scale M (2 ^ (zoom + 1)))) in *.
  set (q := SF2R (ddiv a (tile_scale M (2 ^ zoom)))) in *.
  set (q' := SF2R (ddiv a (tile_scale M (2 ^ (zoom + 1))))) in *.
  assert (Hpow : 2 ^ (zoom + 1) = 2 * 2 ^ zoom) by (apply pow2_succ; lia).
  assert (Hnpos : (0 < IZR (2 ^ zoom))%R).
  { apply IZR_lt. apply Z.pow_pos_nonneg; lia. }
  assert (Hs' : (s' = s / 2)%R).
  { rewrite Hsv, Hsv', Hpow, mult_IZR. field. lra. }
  assert (Hv' : (SF2R a / s' = 2 * (SF2R a / s))%R).
  { rewrite Hs'. field. lra. }
  rewrite Hv' in Rq'.
  assert (Hv0 : (0 <= SF2R a / s)%R).
  { apply Rmult_le_pos; [lra |]. apply Rlt_le. now apply Rinv_0_lt_compat. }
  assert (Hbnd : 0 <= f <= 2 ^ zoom).
  { split.
    - assert (Hlt : (IZR (- 1) < IZR f)%R) by (change (IZR (- 1)) with (- 1)%R; lra).
      apply lt_IZR in Hlt. lia.
    - apply le_IZR. lra. }
  assert (Hbnd' : f' <= 2 ^ (zoom + 1)) by (apply le_IZR; lra).
  split; [exact Hbnd |]. split; [| exact Hbnd'].
  assert (Hquarter : representable (/ 4)).
  { exists 1, (- 2). unfold F2R. rewrite bpow_m2. repeat split; try lia. ring. }
  assert (Hhalf : representable (/ 2)).
  { exists 1, (- 1). unfold F2R. rewrite bpow_m1. repeat split; try lia. ring. }
  destruct (Rle_lt_dec (/ 4) (SF2R a / s)) as [Hbig | Hsmall].
  - pose proof (rounded_value_unique _ _ _ Rq' (rounded_value_double _ _ Rq Hbig)) as Eq.
    assert (H1 : (IZR (2 * f) < IZR (f' + 1))%R) by (rewrite mult_IZR, plus_IZR; lra).
    assert (H2 : (IZR f' < IZR (2 * f + 2))%R) by (rewrite plus_IZR, mult_IZR; lra).
    apply lt_IZR in H1, H2. lia.
  - assert (Hq4 : (q <= / 4)%R).
    { apply (rounded_value_monotone _ _ _ _ Rq (rounded_value_exact _ Hquarter)). lra. }
    assert (Hq2 : (q' <= / 2)%R).
    { apply (rounded_value_monotone _ _ _ _ Rq' (rounded_value_exact _ Hhalf)). lra. }
    assert (H1 : (IZR f < IZR 1)%R) by lra.
    assert (H2 : (IZR f' < IZR 1)%R) by lra.
    assert (H3 : (IZR (- 1) < IZR f')%R) by (change (IZR (- 1)) with (- 1)%R; lra).
    apply lt_IZR in H1, H2, H3. lia.
Qed.

Lemma clamp_child (f f' n : Z) :
  0 < n -> 0 <= f <= n -> 2 * f <= f' <= 2 * f + 1 -> f' <= 2 * n ->
  clamp f' 0 (2 * n - 1) / 2 = clamp f 0 (n - 1).
Proof.
  intros Hn Hf Hf' Hle. unfold clamp.
  destruct (Z.eq_dec f n) as [-> | Hne].
  - replace (Z.max 0 (Z.min f' (2 * n - 1))) with (2 * n - 1) by lia.
    replace (Z.max 0 (Z.min n (n - 1))) with (n - 1) by lia.
    symmetry. apply Z.div_unique with (r := 1); lia.
  - replace (Z.max 0 (Z.min f' (2 * n - 1))) with f' by lia.
    replace (Z.max 0 (Z.min f (n - 1))) with f by lia.
    symmetry. apply Z.div_unique with (r := f' - 2 * f); lia.
Qed.

(** Column and row at a zoom level, from those at a deeper one. *)
Lemma stored_ancestor (a : double) (k : nat) :
  nonneg_double a -> (SF2R a <= 2 * SF2R M)%R ->
  forall zoom, 0 <= zoom -> zoom + Z.of_nat k <= 30 ->
    clamp (double_floor (ddiv a (tile_scale M (2 ^ zoom)))) 0 (2 ^ zoom - 1)
    = clamp (double_floor (ddiv a (tile_scale M (2 ^ (zoom + Z.of_nat k))))) 0
        (2 ^ (zoom + Z.of_nat k) - 1) / 2 ^ Z.of_nat k.
Proof.
  intros Ha Hle. induction k as [| k IH]; intros zoom Hz0 Hz1.
  - cbn [Z.of_nat]. rewrite Z.add_0_r, Z.div_1_r. reflexivity.
  - rewrite Nat2Z.inj_succ in *. unfold Z.succ in *.
    replace (zoom + (Z.of_nat k + 1)) with ((zoom + 1) + Z.of_nat k) by lia.
    replace (2 ^ (Z.of_nat k + 1)) with (2 ^ Z.of_nat k * 2)
      by (rewrite Z.pow_add_r by lia; reflexivity).
    rewrite <- Z.div_div by (try apply Z.pow_nonzero; lia).
    rewrite <- (IH (zoom + 1)) by lia.
    destruct (floor_child a zoom Hz0 ltac:(lia) Ha Hle) as (Hf & Hf' & Hb).
    rewrite (pow2_succ zoom Hz0) in Hb, Hf' |- *. symmetry.
    apply clamp_child; auto. apply Z.pow_pos_nonneg; lia.
Qed.

Lemma Tile_at_Ok_members (b : build) (zoom : Z) (location : Location) (t : Tile) :
  0 <= zoom <= 30 ->
  Tile_at Location location_valid lonlat_to_mercator M b zoom location = Ok t ->
  x t = spec_column M zoom (Coordinates.x (lonlat_to_mercator location))
  /\ y t = spec_row M zoom (Coordinates.y (lonlat_to_mercator location))
  /\ z t = zoom.
Proof.
  intros Hz Ht.
  pose proof (pow2_le_30 zoom Hz) as Hp. change (2 ^ 30) with 1073741824 in Hp.
  destruct (Tile_at_Ok_inv b zoom location t Hz Ht) as (ix & iy & Ex & Ey & ->).
  cbn [x y z]. unfold spec_column, spec_row. rewrite spec_scale_eq.
  rewrite (restrict_trunc_floor _ ix (2 ^ zoom - 1) ltac:(lia) Ex).
  rewrite (restrict_trunc_floor _ iy (2 ^ zoom - 1) ltac:(lia) Ey).
  rewrite !restrict_to_range_clamp by lia. repeat split.
Qed.

(** X6. The tiles of one point at two zoom levels are ancestor and
    descendant in the quadtree: column and row at the lower level are
    those at the deeper level shifted right by the difference of the
    levels. *)
Theorem Tile_at_ancestor
    (b b' : build) (zoom zoom' : Z) (location : Location) (t t' : Tile) :
  0 <= zoom <= zoom' -> zoom' <= 30 ->
  within_extent M (lonlat_to_mercator location) = true ->
  Tile_at Location location_valid lonlat_to_mercator M b zoom location = Ok t ->
  Tile_at Location location_valid lonlat_to_mercator M b' zoom' location = Ok t' ->
  x t = x t' / 2 ^ (zoom' - zoom) /\ y t = y t' / 2 ^ (zoom' - zoom).
Proof.
  intros Hz Hz' Hext Ht Ht'.
  destruct (Tile_at_Ok_members b zoom location t ltac:(lia) Ht) as (-> & -> & _).
  destruct (Tile_at_Ok_members b' zoom' location t' ltac:(lia) Ht') as (-> & -> & _).
  destruct (within_extent_spec _ Hext) as (Hfx & Hfy & Hvx & Hvy).
  destruct (numerator_x _ Hfx Hvx) as (Hax & [_ Hbx] & _).
  destruct (numerator_y _ Hfy Hvy) as (Hay & [_ Hby] & _).
  unfold spec_column, spec_row. rewrite !spec_scale_eq.
  remember (Z.to_nat (zoom' - zoom)) as k eqn:Ek.
  assert (E : zoom' = zoom + Z.of_nat k) by lia.
  rewrite E. replace (zoom + Z.of_nat k - zoom) with (Z.of_nat k) by lia.
  split; apply stored_ancestor; auto; lia.
Qed.

(** ** The tile and the point, in exact arithmetic *)

(** The error of one rounding: relative [2^-53], or absolute [2^-1075]
    below the normal range. *)
Lemma rounded_value_error (v w : R) :
  rounded_value v w -> (0 <= v)%R ->
  (- (v * bpow (- 53) + bpow (- 1075)) <= w - v <= v * bpow (- 53) + bpow (- 1075))%R.
Proof.
  intros (m & e & -> & He & Hm & Hnear & Hev & Hnorm & Hmag) Hv.
  pose proof (bpow_gt_0 e) as Hbe. pose proof (bpow_opp e) as Hinv.
  pose proof (bpow_gt_0 (- 53)) as Hu. pose proof (bpow_gt_0 (- 1075)) as Heta.
  set (y := (v * bpow (- e))%R) in *.
  assert (Hvy : (v = y * bpow e)%R).
  { unfold y. rewrite Rmult_assoc, (Rmult_comm (bpow (- e))), Hinv. ring. }
  assert (Hhalf : (bpow e * / 2 <= v * bpow (- 53) + bpow (- 1075))%R).
  { destruct (Z_lt_dec (- 1074) e) as [Hlt | Hge].
    - destruct (Hnorm Hlt) as [_ Hlo].
      assert (Hb : (bpow e * / 2 = bpow (e + 52) * bpow (- 53))%R).
      { rewrite <- bpow_add. replace (e + 52 + - 53) with (e + - 1) by lia.
        rewrite bpow_add, bpow_m1. reflexivity. }
      rewrite Hb. assert (bpow (e + 52) * bpow (- 53) <= v * bpow (- 53))%R by nra. lra.
    - assert (e = - 1074) by lia. subst e.
      replace (- 1074) with (- 1075 + 1) by lia. rewrite bpow_succ.
      assert (0 <= v * bpow (- 53))%R by nra. lra. }
  unfold F2R. rewrite Hvy at 1 3.
  replace (IZR m * bpow e - y * bpow e)%R with ((IZR m - y) * bpow e)%R by ring.
  split; nra.
Qed.

Lemma extent_large : (bpow (- 993) <= SF2R M)%R.
Proof.
  destruct extent_ok_spec as (m & e & -> & Hb & He).
  apply bounded_spec in Hb as (_ & _ & Hn). cbn [SF2R cond_Zopp].
  apply Rle_trans with (F2R (2 ^ 52) e); [| apply F2R_le; apply Hn; lia].
  rewrite F2R_bpow by lia. apply bpow_le. lia.
Qed.

(** The computed quotient against the exact one: they differ by less than
    [2^-21]. *)
Lemma quotient_error (a : double) (v : R) (zoom : Z) :
  0 <= zoom <= 30 ->
  nonneg_double a -> (SF2R a <= 2 * SF2R M)%R ->
  rounded_value v (SF2R a) -> (0 <= v <= 2 * SF2R M)%R ->
  (- bpow (- 21)
   <= SF2R (ddiv a (tile_scale M (2 ^ zoom))) - v / (2 * SF2R M) * IZR (2 ^ zoom)
   <= bpow (- 21))%R.
Proof.
  intros Hz Ha Hle Hra Hv.
  destruct (quotient_between a zoom Hz Ha Hle) as (_ & _ & Rq).
  destruct (tile_scale_value zoom Hz) as [_ Hsv].
  destruct extent_nonneg as [_ HMpos]. pose proof extent_large as HMbig.
  pose proof (nonneg_double_ge_0 a Ha) as Ha0.
  pose proof (pow2_le_30 zoom Hz) as Hp.
  set (N := IZR (2 ^ zoom)) in *. set (B := (2 * SF2R M)%R) in *.
  set (u := bpow (- 53)). set (eta := bpow (- 1075)).
  assert (HN1 : (1 <= N)%R) by (apply IZR_le; lia).
  assert (HN30 : (N <= bpow 30)%R) by (rewrite bpow_IZR by lia; apply IZR_le; lia).
  assert (HB : (0 < B)%R) by (unfold B; lra).
  assert (Hu : (0 < u)%R) by apply bpow_gt_0.
  assert (Heta : (0 < eta)%R) by apply bpow_gt_0.
  set (g := (N / B)%R).
  assert (Hg : (0 < g)%R) by (apply Rdiv_lt_0_compat; lra).
  assert (HgB : (g * B = N)%R) by (unfold g; field; lra).
  assert (Hquot : (SF2R a / SF2R (tile_scale M (2 ^ zoom)) = SF2R a * g)%R).
  { rewrite Hsv. fold N B. unfold g. field. lra. }
  assert (Hexact : (v / B * N = v * g)%R) by (unfold g; field; lra).
  rewrite Hquot in Rq. rewrite Hexact.
  set (q := SF2R (ddiv a (tile_scale M (2 ^ zoom)))) in *.
  assert (Hag : (0 <= SF2R a * g <= N)%R) by (split; nra).
  assert (Hvg : (0 <= v * g <= N)%R) by (split; nra).
  pose proof (rounded_value_error _ _ Hra ltac:(lra)) as [E1 E1'].
  pose proof (rounded_value_error _ _ Rq ltac:(lra)) as [E2 E2'].
  fold u eta in E1, E1', E2, E2'.
  (* sizes *)
  assert (HNu : (N * u <= bpow (- 23))%R).
  { replace (bpow (- 23)) with (bpow 30 * u)%R by (unfold u; rewrite <- bpow_add; reflexivity).
    apply Rmult_le_compat_r; [lra | exact HN30]. }
  assert (Hetag : (eta * g <= u)%R).
  { apply Rmult_le_reg_r with B; [exact HB |]. rewrite Rmult_assoc, HgB.
    apply Rle_trans with (eta * bpow 30)%R;
      [apply Rmult_le_compat_l; [lra | exact HN30] |].
    apply Rle_trans with (u * (2 * bpow (- 993)))%R.
    - unfold eta, u. rewrite <- bpow_succ, <- !bpow_add. apply bpow_le. lia.
    - apply Rmult_le_compat_l; [lra | unfold B; lra]. }
  assert (Hu23 : (u <= bpow (- 23))%R) by (apply bpow_le; lia).
  assert (Heta23 : (eta <= bpow (- 23))%R) by (apply bpow_le; lia).
  assert (H21 : (bpow (- 21) = 4 * bpow (- 23))%R).
  { replace (- 21) with (- 23 + 1 + 1) by lia. rewrite !bpow_succ. ring. }
  assert (Hagu : (SF2R a * g * u <= N * u)%R) by nra.
  assert (Hvgu : (v * g * u <= N * u)%R) by nra.
  assert (Hd1 : (- (v * g * u + eta * g) <= (SF2R a - v) * g <= v * g * u + eta * g)%R).
  { split; nra. }
  rewrite H21.
  replace (q - v * g)%R with ((q - SF2R a * g) + (SF2R a - v) * g)%R by ring.
  lra.
Qed.

(** X7. In exact arithmetic the point lies in the column and in the row of
    its tile, give or take [2^-21] of a tile: with [tx] and [ty] the exact
    quotients [(px + M) / (2 * M) * n] and [(M - py) / (2 * M) * n], the
    constructor returns a tile with [x - 2^-21 <= tx <= x + 1 + 2^-21], and
    the same for [y] and [ty]. *)
Theorem Tile_at_contains (b : build) (zoom : Z) (location : Location) :
  0 <= zoom <= 30 ->
  location_valid location = true ->
  within_extent M (lonlat_to_mercator location) = true ->
  let c := lonlat_to_mercator location in
  let n := IZR (2 ^ zoom) in
  let tx := ((SF2R (Coordinates.x c) + SF2R M) / (2 * SF2R M) * n)%R in
  let ty := ((SF2R M - SF2R (Coordinates.y c)) / (2 * SF2R M) * n)%R in
  exists t,
    Tile_at Location location_valid lonlat_to_mercator M b zoom location = Ok t
    /\ (IZR (x t) - bpow (- 21) <= tx <= IZR (x t) + 1 + bpow (- 21))%R
    /\ (IZR (y t) - bpow (- 21) <= ty <= IZR (y t) + 1 + bpow (- 21))%R.
Proof.
  intros Hz Hv Hext c n tx ty.
  pose proof (pow2_le_30 zoom Hz) as Hp. change (2 ^ 30) with 1073741824 in Hp.
  destruct (Tile_at_completes b zoom location Hz Hv Hext) as (ix & iy & Ex & Ey & Ht).
  fold c in Ex, Ey. unfold raw_x, raw_y in Ex, Ey.
  destruct (within_extent_spec _ Hext) as (Hfx & Hfy & Hvx & Hvy).
  fold c in Hfx, Hfy, Hvx, Hvy.
  destruct extent_nonneg as [_ HMpos].
  pose proof (bpow_gt_0 (- 21)) as Heps.
  assert (Hn : (0 < n)%R) by (apply IZR_lt; lia).
  assert (Hstored : forall (a : double) (v : R) (i : Z),
            nonneg_double a -> (SF2R a <= 2 * SF2R M)%R ->
            rounded_value v (SF2R a) -> (0 <= v <= 2 * SF2R M)%R ->
            int32_of_double (ddiv a (tile_scale M (2 ^ zoom))) = Ok i ->
            (IZR (detail.restrict_to_range i 0 (2 ^ zoom - 1)) - bpow (- 21)
             <= v / (2 * SF2R M) * n
             <= IZR (detail.restrict_to_range i 0 (2 ^ zoom - 1)) + 1 + bpow (- 21))%R).
  { intros a v i Ha Hle Hr Hv0 Ei.
    destruct (index_defined a zoom Hz Ha Hle) as (j & Ej & Hj & Hfl).
    rewrite Ei in Ej. injection Ej as <-.
    pose proof (quotient_error a v zoom Hz Ha Hle Hr Hv0) as Herr. fold n in Herr.
    assert (Hvn : (v / (2 * SF2R M) * n <= n)%R).
    { apply Rle_trans with (1 * n)%R; [| lra].
      apply Rmult_le_compat_r; [lra |].
      apply Rmult_le_reg_r with (2 * SF2R M)%R; [lra |].
      unfold Rdiv. rewrite Rmult_assoc, Rinv_l by lra. lra. }
    rewrite restrict_to_range_clamp by lia. unfold clamp.
    destruct (Z.eq_dec i (2 ^ zoom)) as [-> | Hne].
    - replace (Z.max 0 (Z.min (2 ^ zoom) (2 ^ zoom - 1))) with (2 ^ zoom - 1) by lia.
      rewrite minus_IZR. fold n in Hfl |- *. lra.
    - replace (Z.max 0 (Z.min i (2 ^ zoom - 1))) with i by lia. lra. }
  destruct (numerator_x _ Hfx Hvx) as (Hax & [_ Hbx] & Rx).
  destruct (numerator_y _ Hfy Hvy) as (Hay & [_ Hby] & Ry).
  eexists. split; [exact Ht |]. cbn [x y]. split.
  - apply (Hstored _ _ ix Hax Hbx Rx); [lra | exact Ex].
  - apply (Hstored _ _ iy Hay Hby Ry); [lra | exact Ey].
Qed.


End TileAt.

(** * Concrete runs *)

(** Zoom 1: the upper left quarter is tile (0, 0), the lower right quarter
    tile (1, 1). *)
Example planar_quadrants :
  planar_Tile_at Checked 1
    (Coordinates.mk (S754_finite true 5378777688351703 (- 29))
                    (S754_finite false 5378777688351703 (- 29)))
  = Ok {| x := 0; y := 0; z := 1 |}
  /\ planar_Tile_at Checked 1
       (Coordinates.mk (S754_finite false 5378777688351703 (- 29))
                       (S754_finite true 5378777688351703 (- 29)))
     = Ok {| x := 1; y := 1; z := 1 |}.
Proof. split; vm_compute; reflexivity. Qed.

(** The arithmetic is that of binary64: the largest negative double lies
    west of the centre line, yet [px + M] rounds to [M] and the point is
    counted to column 1 at zoom 1. *)
Example planar_boundary_rounding :
  planar_Tile_at Checked 1
    (Coordinates.mk (S754_finite true 1 (- 1074)) (S754_zero false))
  = Ok {| x := 1; y := 1; z := 1 |}.
Proof. vm_compute. reflexivity. Qed.

Lemma Tile_at_valid_witness :
  exists t,
    planar_Tile_at Checked 1 (Coordinates.mk (S754_zero false) epsg3857_max) = Ok t
    /\ valid t = Ok true
    /\ z t = 1 /\ z t <= 30
    /\ 0 <= x t <= 2 ^ 1 - 1
    /\ 0 <= y t <= 2 ^ 1 - 1.
Proof.
  apply (Tile_at_valid Coordinates planar_valid planar_projection epsg3857_max
           eq_refl Checked 1 (Coordinates.mk (S754_zero false) epsg3857_max)).
  - lia.
  - reflexivity.
  - reflexivity.
Defined.

Lemma Tile_at_zoom_0_witness :
  planar_Tile_at Checked 0 (Coordinates.mk (S754_zero false) epsg3857_max)
  = Ok {| x := 0; y := 0; z := 0 |}.
Proof.
  apply (Tile_at_zoom_0 Coordinates planar_valid planar_projection epsg3857_max
           eq_refl Checked (Coordinates.mk (S754_zero false) epsg3857_max)).
  - reflexivity.
  - reflexivity.
Defined.

Lemma Tile_at_top_row_witness :
  exists t,
    planar_Tile_at Checked 30 (Coordinates.mk (S754_zero false) epsg3857_max) = Ok t
    /\ y t = 0.
Proof.
  destruct (Tile_at_top_row Coordinates planar_valid planar_projection epsg3857_max
              eq_refl Checked 30 (Coordinates.mk (S754_zero false) epsg3857_max))
    as (t & Ht & _ & Htop).
  - lia.
  - reflexivity.
  - reflexivity.
  - exists t. split; [exact Ht | apply Htop; reflexivity].
Defined.

Lemma Tile_at_formula_witness :
  exists t,
    planar_Tile_at Checked 1 (Coordinates.mk (S754_zero false) epsg3857_max) = Ok t
    /\ x t = spec_column epsg3857_max 1 (S754_zero false)
    /\ y t = spec_row epsg3857_max 1 epsg3857_max.
Proof.
  destruct (Tile_at_formula Coordinates planar_valid planar_projection epsg3857_max
              eq_refl Checked 1 (Coordinates.mk (S754_zero false) epsg3857_max))
    as (t & Ht & Hx & Hy & _).
  - lia.
  - reflexivity.
  - reflexivity.
  - exists t. auto.
Defined.

Lemma Tile_at_column_monotone_witness :
  x {| x := 0; y := 1; z := 1 |} <= x {| x := 1; y := 1; z := 1 |}.
Proof.
  apply (Tile_at_column_monotone Coordinates planar_valid planar_projection epsg3857_max
           eq_refl Checked Checked 1
           (Coordinates.mk (S754_finite true 5378777688351703 (- 29)) (S754_zero false))
           (Coordinates.mk (S754_finite false 5378777688351703 (- 29)) (S754_zero false))).
  - lia.
  - reflexivity.
  - reflexivity.
  - vm_compute. reflexivity.
  - vm_compute. reflexivity.
  - reflexivity.
Defined.

Lemma Tile_at_edges_witness :
  exists t,
    planar_Tile_at Checked 3 (Coordinates.mk epsg3857_max (SFopp epsg3857_max)) = Ok t
    /\ x t = 7 /\ y t = 7.
Proof.
  destruct (Tile_at_edges Coordinates planar_valid planar_projection epsg3857_max
              eq_refl Checked 3 (Coordinates.mk epsg3857_max (SFopp epsg3857_max)))
    as (t & Ht & _ & Heast & Hsouth & _).
  - lia.
  - reflexivity.
  - reflexivity.
  - exists t. split; [exact Ht |]. split.
    + now apply Heast.
    + now apply Hsouth.
Defined.

Lemma Tile_at_ancestor_witness :
  x {| x := 0; y := 1; z := 1 |} = x {| x := 2; y := 4; z := 3 |} / 2 ^ (3 - 1)
  /\ y {| x := 0; y := 1; z := 1 |} = y {| x := 2; y := 4; z := 3 |} / 2 ^ (3 - 1).
Proof.
  apply (Tile_at_ancestor Coordinates planar_valid planar_projection epsg3857_max
           eq_refl Checked NDEBUG 1 3
           (Coordinates.mk (S754_finite true 5378777688351703 (- 29)) (S754_zero false))).
  - lia.
  - lia.
  - reflexivity.
  - vm_compute. reflexivity.
  - vm_compute. reflexivity.
Defined.

Lemma Tile_at_contains_witness :
  exists t,
    planar_Tile_at Checked 1 (Coordinates.mk (S754_zero false) epsg3857_max) = Ok t
    /\ (IZR (x t) - bpow (- 21)
        <= (0 + SF2R epsg3857_max) / (2 * SF2R epsg3857_max) * IZR (2 ^ 1)
        <= IZR (x t) + 1 + bpow (- 21))%R.
Proof.
  destruct (Tile_at_contains Coordinates planar_valid planar_projection epsg3857_max
              eq_refl Checked 1 (Coordinates.mk (S754_zero false) epsg3857_max))
    as (t & Ht & Hx & _).
  - lia.
  - reflexivity.
  - reflexivity.
  - exists t. split; [exact Ht | exact Hx].
Defined.


Lemma Tile_at_rebuild_witness :
  Tile_xyz Checked 3 2 4 = Ok {| x := 2; y := 4; z := 3 |}.
Proof.
  apply (Tile_at_rebuild Coordinates planar_valid planar_projection epsg3857_max
           NDEBUG Checked 3
           (Coordinates.mk (S754_finite true 5378777688351703 (- 29)) (S754_zero false))
           {| x := 2; y := 4; z := 3 |}).
  - lia.
  - vm_compute. reflexivity.
Defined.
